(** * The crawl engine of the SEO analyser (src/app/api/analyze/route.ts)

    A shallow embedding of the route handler [GET], the orchestrator
    [analyzeWebsite], the page analyser [analyzePage] and the link extractor
    [extractUrls], followed by the properties the specification states about
    them.

    Conventions of the model.
    - JavaScript strings are [string]s; the operations used by the source
      ([startsWith], [endsWith], [split(c)[0]], [slice(0,-1)], [lastIndexOf],
      [substring], [includes]) are written out below.
    - The [Set<string>] of visited URLs is a [gset string]; the queue and the
      results are lists.
    - The platform is a parameter of the development: [new URL(s)] is a
      function [URL : string -> option URLObj] ([None] when the constructor
      throws), [cheerio.load] a function to an element list ([None] when it
      throws), and [fetch] an oracle indexed by the number of calls made so
      far, so that two requests for one address may be answered differently.
      What depends on the character set of the platform is a parameter too:
      [trim], the count of the words of a text, and the comparison that an
      attribute selector applies to attribute values.
    - The writer is a sink that accepts every chunk; what the program does to
      the outside is recorded, in order, in the [log] of the crawl state.
    - The 100 ms pause at the end of an iteration changes no state and is not
      modelled. *)

From Stdlib Require Import ZArith Ascii String DecimalString.
From stdpp Require Import base decidable list strings gmap sorting.

Local Open Scope nat_scope.

(** ** Strings *)

Module Js.

(** [s.startsWith(p)] *)
Definition startsWith (s p : string) : bool := String.prefix p s.

(** [s.endsWith(p)] *)
Fixpoint endsWith (s p : string) : bool :=
  String.eqb s p ||
  match s with
  | EmptyString => false
  | String _ r => endsWith r p
  end.

(** [s.includes(p)] *)
Fixpoint includes (s p : string) : bool :=
  String.prefix p s ||
  match s with
  | EmptyString => false
  | String _ r => includes r p
  end.

(** [s.split(c)[0]] for a one-character separator [c] *)
Fixpoint before (c : ascii) (s : string) : string :=
  match s with
  | EmptyString => EmptyString
  | String a r => if Ascii.eqb a c then EmptyString else String a (before c r)
  end.

(** [s.slice(0, -1)] *)
Fixpoint dropLast (s : string) : string :=
  match s with
  | EmptyString => EmptyString
  | String a EmptyString => EmptyString
  | String a r => String a (dropLast r)
  end.

Fixpoint lastIndexOf_from (c : ascii) (s : string) (i acc : Z) : Z :=
  match s with
  | EmptyString => acc
  | String a r => lastIndexOf_from c r (i + 1)%Z (if Ascii.eqb a c then i else acc)
  end.

(** [s.lastIndexOf(c)], [-1] when [c] does not occur *)
Definition lastIndexOf (s : string) (c : ascii) : Z :=
  lastIndexOf_from c s 0%Z (-1)%Z.

(** [s.substring(0, k)] *)
Definition substring0 (s : string) (k : Z) : string :=
  String.substring 0 (Z.to_nat k) s.

(** The white space of ASCII: tab, line feed, vertical tab, form feed,
    carriage return and space. The platform knows more white space than this
    (the no-break space and other spaces of Unicode), so the engine takes
    [trim] and the count of words from the platform; the four functions below
    are those of the reference platform [Plain], and they are the platform's
    on ASCII text. *)
Definition isSpace (a : ascii) : bool :=
  let n := nat_of_ascii a in
  ((9 <=? n) && (n <=? 13)) || (n =? 32).

Fixpoint trimStart (s : string) : string :=
  match s with
  | EmptyString => EmptyString
  | String a r => if isSpace a then trimStart r else s
  end.

Fixpoint trimEnd (s : string) : string :=
  match s with
  | EmptyString => EmptyString
  | String a r =>
      match trimEnd r with
      | EmptyString => if isSpace a then EmptyString else String a EmptyString
      | t => String a t
      end
  end.

(** [s.trim()] on ASCII text. *)
Definition trim (s : string) : string := trimEnd (trimStart s).

(** [s.split(/\s+/).filter(Boolean).length] on ASCII text: the number of
    maximal runs of characters that are not white space. [inWord] tells
    whether the character before [s] was part of a run. *)
Fixpoint countTokens (inWord : bool) (s : string) : nat :=
  match s with
  | EmptyString => 0
  | String a r =>
      if isSpace a then countTokens false r
      else (if inWord then 0 else 1) + countTokens true r
  end.

(** ASCII case folding: the letters A to Z lowered, every other character
    kept. It is [s.toLowerCase()] on ASCII text only; where the source lowers
    arbitrary text (the search of the results page) the function is a
    parameter. *)
Definition toLowerAscii (a : ascii) : ascii :=
  let n := nat_of_ascii a in
  if (65 <=? n) && (n <=? 90) then ascii_of_nat (n + 32) else a.

Fixpoint toLowerCase (s : string) : string :=
  match s with
  | EmptyString => EmptyString
  | String a r => String (toLowerAscii a) (toLowerCase r)
  end.

End Js.

(** ** Data *)

(** [interface SeoData] *)
Record SeoData := mkSeoData {
  url : string;
  statusCode : nat;
  title : string;
  metaDescription : string;
  canonical : string;
  h1 : string;
  h2Count : nat;
  imgCount : nat;
  imgWithAlt : nat;
  wordCount : nat
}.

Definition MAX_URLS : nat := 500.

(** The fields of a [URL] object that the source reads. *)
Record URLObj := mkURL {
  protocol : string;
  host : string;
  pathname : string
}.

(** A [Response] as far as the source looks at it: [text] is [None] when
    reading the body rejects. *)
Record Response := mkResponse {
  status : nat;
  contentType : option string;
  text : option string
}.

(** [response.ok]: the status is in the range 200 to 299. *)
Definition ok (r : Response) : bool :=
  (200 <=? status r) && (status r <=? 299).

Inductive FetchResult :=
| FetchThrows
| FetchReturns (r : Response).

(** An element of a parsed document, in document order: its tag name, its
    attributes and its text content. *)
Record Element := mkElement {
  tag : string;
  attrs : list (string * string);
  innerText : string
}.

Definition Document := list Element.

(** The chunks written to the stream. *)
Inductive Event :=
| EProgress (value : nat)
| EResult (value : SeoData).

(** What the crawl does to the outside, in order. [AResolve] marks a call of
    [extractUrls], [AVisit] a [visited.add], [AEnqueue] a [queue.push]. *)
Inductive Action :=
| AVisit (u : string)
| AWrite (e : Event)
| AFetch (u : string)
| AResolve (u : string)
| AEnqueue (u : string)
| AClose.

(** ** Selections of the document *)

Module Cheerio.

Definition attr (a : string) (e : Element) : option string :=
  snd <$> List.find (fun kv => String.eqb (fst kv) a) (attrs e).

Definition hasAttr (a : string) (e : Element) : bool :=
  match attr a e with Some _ => true | None => false end.

(** [$("t")] *)
Definition byTag (t : string) (d : Document) : list Element :=
  List.filter (fun e => String.eqb (tag e) t) d.

(** [$("t[a]")] *)
Definition byTagAttr (t a : string) (d : Document) : list Element :=
  List.filter (fun e => String.eqb (tag e) t && hasAttr a e) d.

(** [$('t[a="v"]')]. [same x v] is the comparison that the selector engine
    applies to the value [x] of the attribute [a] and the wanted [v]: exact
    for some attribute names, blind to the case of letters for others. *)
Definition byTagAttrEq (same : string -> string -> bool) (t a v : string)
    (d : Document) : list Element :=
  List.filter
    (fun e => String.eqb (tag e) t &&
              match attr a e with Some x => same x v | None => false end) d.

(** [sel.attr(a)], or the empty string when it is missing or empty: the
    attribute of the first selected element. *)
Definition attrOrEmpty (a : string) (sel : list Element) : string :=
  match sel with
  | e :: _ => match attr a e with Some v => v | None => EmptyString end
  | [] => EmptyString
  end.

(** [sel.text()]: the text of every selected element, concatenated. *)
Definition textOf (sel : list Element) : string :=
  String.concat EmptyString (innerText <$> sel).

(** [sel.first()] *)
Definition first (sel : list Element) : list Element := take 1 sel.

End Cheerio.

(** ** The crawl state *)

(** The local variables of [analyzeWebsite] and the trace of its effects. *)
Record Crawl := mkCrawl {
  queue : list string;
  visited : gset string;
  results : list SeoData;
  log : list Action
}.

Definition isFetch (a : Action) : bool :=
  match a with AFetch _ => true | _ => false end.

(** The number of calls of [fetch] made so far. *)
Definition fetchCount (l : list Action) : nat :=
  length (List.filter isFetch l).

(** The chunks the writer has received. *)
Definition written (l : list Action) : list Event :=
  omap (fun a => match a with AWrite e => Some e | _ => None end) l.

(** [Math.round((n / MAX_URLS) * 100)]. The exact quotient [n / 5] is never
    within a tenth of a half-integer, so the two roundings of the double
    arithmetic do not change the rounded integer. *)
Definition percent (n : nat) : nat :=
  (2 * (n * 100) + MAX_URLS) / (2 * MAX_URLS).

(** The record of the [catch] branch of [analyzePage] (lines 183-194). *)
Definition failureRecord (u : string) : SeoData :=
  mkSeoData u 0 EmptyString EmptyString EmptyString EmptyString 0 0 0 0.

(** The record [data] as initialised at lines 135-146. *)
Definition defaultRecord (u : string) (code : nat) : SeoData :=
  mkSeoData u code EmptyString EmptyString EmptyString EmptyString 0 0 0 0.

(** [links.add(x)] on a [Set] kept in insertion order. *)
Definition setAdd (links : list string) (x : string) : list string :=
  if bool_decide (x ∈ links) then links else links ++ [x].

(** Lines 259-264: fragment and query removed, then one trailing slash unless
    the string is the seed. *)
Definition stripUrl (fullUrl baseUrl : string) : string :=
  let cut := Js.before "?" (Js.before "#" fullUrl) in
  if Js.endsWith cut "/" && negb (String.eqb cut baseUrl)
  then Js.dropLast cut
  else cut.

(** The answer of the route handler: the 400 reply, or the stream fed by the
    crawl running behind it ([None] only when the model ran out of fuel). *)
Inductive Reply :=
| BadRequest (error : string)
| Streaming (crawl : option Crawl).

(** What the engine takes from the platform. *)
Class Platform := {
  (** [new URL(s)]; [None] when it throws. *)
  URL : string -> option URLObj;
  (** [cheerio.load(html)]; [None] when it throws. *)
  load : string -> option Document;
  (** [fetch(u, ...)] as answered at the k-th call. *)
  fetch : nat -> string -> FetchResult;
  (** [s.trim()] *)
  trim : string -> string;
  (** [s.split(/\s+/).filter(Boolean).length] *)
  countWords : string -> nat;
  (** [valueMatches a x v]: whether a selector that wants the value [v] for
      the attribute [a] accepts the value [x]. *)
  valueMatches : string -> string -> string -> bool
}.

(** Lines 168-178: the record after the assignments from the document. *)
Definition extracted {platform : Platform} (u : string) (code : nat) (d : Document)
  : SeoData :=
  {| url := u;
     statusCode := code;
     title := trim (Cheerio.textOf (Cheerio.byTag "title" d));
     metaDescription :=
       Cheerio.attrOrEmpty "content"
         (Cheerio.byTagAttrEq (valueMatches "name") "meta" "name" "description" d);
     canonical :=
       Cheerio.attrOrEmpty "href"
         (Cheerio.byTagAttrEq (valueMatches "rel") "link" "rel" "canonical" d);
     h1 := trim (Cheerio.textOf (Cheerio.first (Cheerio.byTag "h1" d)));
     h2Count := length (Cheerio.byTag "h2" d);
     imgCount := length (Cheerio.byTag "img" d);
     imgWithAlt := length (Cheerio.byTagAttr "img" "alt" d);
     wordCount := countWords (trim (Cheerio.textOf (Cheerio.byTag "body" d))) |}.

Section Engine.

Context {platform : Platform}.

(** Lines 235-251: the absolute form of an [href]. [None] when the callback
    returns early or a [URL] constructor throws. *)
Definition resolveHref (href pageUrl baseUrl : string) : option string :=
  if Js.startsWith href "http" then Some href
  else if Js.startsWith href "/" then
    match URL baseUrl with
    | Some urlObj => Some (protocol urlObj +:+ "//" +:+ host urlObj +:+ href)
    | None => None
    end
  else if negb (Js.startsWith href "#")
          && negb (Js.startsWith href "javascript:")
          && negb (Js.startsWith href "mailto:") then
    match URL pageUrl with
    | Some urlObj =>
        let path :=
          if Js.endsWith (pathname urlObj) "/" then pathname urlObj
          else Js.substring0 (pathname urlObj)
                 (Js.lastIndexOf (pathname urlObj) "/" + 1)%Z in
        Some (protocol urlObj +:+ "//" +:+ host urlObj +:+ path +:+ href)
    | None => None
    end
  else None.

(** Lines 254-257: both strings parse and their hosts are the same string. *)
Definition sameHost (fullUrl baseUrl : string) : bool :=
  match URL fullUrl, URL baseUrl with
  | Some urlObj, Some baseUrlObj => String.eqb (host urlObj) (host baseUrlObj)
  | _, _ => false
  end.

(** The body of the callback of [each] (lines 229-271): the link that one
    [href] contributes, if any. *)
Definition normalize (href pageUrl baseUrl : string) : option string :=
  if String.eqb href EmptyString then None
  else
    match resolveHref href pageUrl baseUrl with
    | Some fullUrl =>
        if sameHost fullUrl baseUrl then Some (stripUrl fullUrl baseUrl) else None
    | None => None
    end.

Definition hrefOf (e : Element) : string :=
  default EmptyString (Cheerio.attr "href" e).

(** Lines 227-273 once the document is parsed. *)
Definition discoverLinks (d : Document) (pageUrl baseUrl : string) : list string :=
  foldl
    (fun links e =>
       match normalize (hrefOf e) pageUrl baseUrl with
       | Some l => setAdd links l
       | None => links
       end)
    [] (Cheerio.byTagAttr "a" "href" d).

Definition isHtml (r : Response) : bool :=
  Js.includes (default EmptyString (contentType r)) "text/html".

(** [analyzePage] (lines 123-196), threading the log. *)
Definition analyzePage (u baseUrl : string) (l : list Action)
  : SeoData * list Action :=
  let data :=
    match fetch (fetchCount l) u with
    | FetchThrows => failureRecord u
    | FetchReturns response =>
        if negb (ok response) then defaultRecord u (status response)
        else if negb (isHtml response) then defaultRecord u (status response)
        else
          match text response with
          | None => failureRecord u
          | Some html =>
              match load html with
              | None => failureRecord u
              | Some d => extracted u (status response) d
              end
          end
    end in
  (data, l ++ [AFetch u]).

(** [extractUrls] (lines 198-278), threading the log. *)
Definition extractUrls (u baseUrl : string) (l : list Action)
  : list string * list Action :=
  let newUrls :=
    match fetch (fetchCount l) u with
    | FetchThrows => []
    | FetchReturns response =>
        if negb (ok response) then []
        else if negb (isHtml response) then []
        else
          match text response with
          | None => []
          | Some html =>
              match load html with
              | None => []
              | Some d => discoverLinks d u baseUrl
              end
          end
    end in
  (newUrls, l ++ [AResolve u; AFetch u]).

(** The body of the [for] loop (lines 95-97). *)
Definition enqueue (st : Crawl) (newUrl : string) : Crawl :=
  if negb (bool_decide (newUrl ∈ visited st))
     && negb (bool_decide (newUrl ∈ queue st))
     && (length (queue st) + size (visited st) <? MAX_URLS)
  then mkCrawl (queue st ++ [newUrl]) (visited st) (results st)
               (log st ++ [AEnqueue newUrl])
  else st.

(** The condition of the [while] loop (line 62). *)
Definition guard (st : Crawl) : bool :=
  (0 <? length (queue st)) && (size (visited st) <? MAX_URLS).

(** One pass through the body of the [while] loop (lines 63-105). *)
Definition iteration (baseUrl : string) (st : Crawl) : Crawl :=
  match queue st with
  | [] => st
  | u :: rest =>
      if bool_decide (u ∈ visited st)
      then mkCrawl rest (visited st) (results st) (log st)
      else
        let visited' := visited st ∪ {[u]} in
        let log1 :=
          log st ++ [AVisit u; AWrite (EProgress (percent (size visited')))] in
        let '(data, log2) := analyzePage u baseUrl log1 in
        let results' := results st ++ [data] in
        let log3 := log2 ++ [AWrite (EResult data)] in
        if statusCode data =? 200 then
          let '(newUrls, log4) := extractUrls u baseUrl log3 in
          foldl enqueue (mkCrawl rest visited' results' log4) newUrls
        else mkCrawl rest visited' results' log3
  end.

(** Lines 57-59. *)
Definition start (baseUrl : string) : Crawl :=
  mkCrawl [baseUrl] ∅ [] [].

(** The state after [n] passes, or at loop exit when that comes earlier. *)
Fixpoint after (n : nat) (baseUrl : string) : Crawl :=
  match n with
  | 0 => start baseUrl
  | S k =>
      let st := after k baseUrl in
      if guard st then iteration baseUrl st else st
  end.

(** The [while] loop, with fuel. *)
Fixpoint loop (fuel : nat) (baseUrl : string) (st : Crawl) : option Crawl :=
  if guard st then
    match fuel with
    | 0 => None
    | S f => loop f baseUrl (iteration baseUrl st)
    end
  else Some st.

(** [analyzeWebsite] (lines 54-121). *)
Definition analyzeWebsite (fuel : nat) (baseUrl : string) : option Crawl :=
  match loop fuel baseUrl (start baseUrl) with
  | Some st =>
      Some (mkCrawl (queue st) (visited st) (results st)
                    (log st ++ [AWrite (EProgress 100); AClose]))
  | None => None
  end.

(** [GET] (lines 21-52); [domain] is the query parameter, [None] when it is
    absent. *)
Definition GET (fuel : nat) (domain : option string) : Reply :=
  match domain with
  | None => BadRequest "Domain parameter is required"
  | Some d =>
      if String.eqb d EmptyString then BadRequest "Domain parameter is required"
      else
        let baseUrl := if Js.startsWith d "http" then d else "https://" +:+ d in
        Streaming (analyzeWebsite fuel baseUrl)
  end.

End Engine.

(** ** A concrete platform

    A reference instance of the parameters, used to run the engine on
    concrete sites. [Plain.URL] reads strings of the form
    [scheme://host/path?query#fragment] with a host made of letters, digits,
    dots and hyphens, and refuses every other string. It is not the
    platform's constructor: it agrees with it on the addresses used below,
    which are [http] and [https] addresses with such a host, no port, no user
    information, and a path of plain ASCII segments without dot segments and
    without backslash; on other strings it may refuse what the constructor
    reads (a port, user information) or read a path differently (dot
    segments, characters that the constructor escapes). Nothing but the runs
    on concrete sites depends on it. *)

Module Plain.

Fixpoint splitColon (s : string) : option (string * string) :=
  match s with
  | EmptyString => None
  | String a r =>
      if Ascii.eqb a ":" then Some (EmptyString, r)
      else
        match splitColon r with
        | Some (x, y) => Some (String a x, y)
        | None => None
        end
  end.

Definition isDelim (a : ascii) : bool :=
  Ascii.eqb a "/" || Ascii.eqb a "?" || Ascii.eqb a "#".

Fixpoint authority (s : string) : string * string :=
  match s with
  | EmptyString => (EmptyString, EmptyString)
  | String a r =>
      if isDelim a then (EmptyString, s)
      else let '(x, y) := authority r in (String a x, y)
  end.

Definition hostChar (a : ascii) : bool :=
  let n := nat_of_ascii a in
  ((97 <=? n) && (n <=? 122)) || ((65 <=? n) && (n <=? 90))
  || ((48 <=? n) && (n <=? 57))
  || Ascii.eqb a "." || Ascii.eqb a "-".

Fixpoint allChars (p : ascii -> bool) (s : string) : bool :=
  match s with
  | EmptyString => true
  | String a r => p a && allChars p r
  end.

Definition URL (s : string) : option URLObj :=
  match splitColon s with
  | Some (scheme, String "/" (String "/" r)) =>
      let '(h, rest) := authority r in
      if String.eqb scheme EmptyString || String.eqb h EmptyString
         || negb (allChars hostChar h)
      then None
      else
        let p := Js.before "?" (Js.before "#" rest) in
        Some (mkURL (Js.toLowerCase scheme +:+ ":") (Js.toLowerCase h)
                    (if String.eqb p EmptyString then "/" else p))
  | _ => None
  end.

(** A site: the response served at each address. [fetch] throws for an
    address that does not parse and for one that nothing serves. *)
Definition Site := list (string * Response).

Definition lookup (site : Site) (u : string) : option Response :=
  snd <$> List.find (fun kv => String.eqb (fst kv) u) site.

Definition fetch (site : Site) (k : nat) (u : string) : FetchResult :=
  match URL u with
  | None => FetchThrows
  | Some _ =>
      match lookup site u with
      | Some r => FetchReturns r
      | None => FetchThrows
      end
  end.

(** Documents are named by their text: [load] looks the text up. *)
Definition Pages := list (string * Document).

Definition load (pages : Pages) (html : string) : option Document :=
  Some (default [] (snd <$> List.find (fun kv => String.eqb (fst kv) html) pages)).

(** The comparison of attribute values of the reference platform: blind to
    the case of ASCII letters for [rel], exact for the other names. *)
Definition valueMatches (name x v : string) : bool :=
  if String.eqb name "rel"
  then String.eqb (Js.toLowerCase x) (Js.toLowerCase v)
  else String.eqb x v.

Definition a (href : string) : Element :=
  mkElement "a" [("href", href)] EmptyString.

Definition html (body : string) : Response :=
  mkResponse 200 (Some "text/html; charset=utf-8") (Some body).

End Plain.


(** ** Vocabulary of the properties *)

(** Whether the character [c] occurs in [s]. *)
Fixpoint occurs (c : ascii) (s : string) : bool :=
  match s with
  | EmptyString => false
  | String a r => Ascii.eqb a c || occurs c r
  end.

(** The addresses passed to [visited.add], in order. *)
Definition visits (l : list Action) : list string :=
  omap (fun a => match a with AVisit u => Some u | _ => None end) l.

(** [u] is what line 266 adds for some absolute address whose parsed host is
    the parsed host of the seed. *)
Definition SameHostLink {platform : Platform} (baseUrl u : string) : Prop :=
  exists fullUrl urlObj baseUrlObj,
    URL fullUrl = Some urlObj /\
    URL baseUrl = Some baseUrlObj /\
    host urlObj = host baseUrlObj /\
    Js.toLowerCase (host urlObj) = Js.toLowerCase (host baseUrlObj) /\
    u = stripUrl fullUrl baseUrl.

(** Every [queue.push] in the trace happens while the address has not been
    passed to [visited.add]. *)
Definition FreshEnqueues (l : list Action) : Prop :=
  forall l1 u l2, l = l1 ++ AEnqueue u :: l2 -> AVisit u ∉ l1.

Section Passes.

Context {platform : Platform}.
Variable baseUrl : string.

(** The trace up to the call of [analyzePage] in the pass that takes [u] off
    the queue of [st]. *)
Definition logAtFetch (st : Crawl) (u : string) : list Action :=
  log st ++ [AVisit u; AWrite (EProgress (percent (size (visited st ∪ {[u]}))))].

(** The record that pass builds for [u]. *)
Definition pageData (st : Crawl) (u : string) : SeoData :=
  fst (analyzePage u baseUrl (logAtFetch st u)).

(** The trace of that pass up to the [for] loop. *)
Definition passActions (st : Crawl) (u : string) : list Action :=
  [AVisit u; AWrite (EProgress (percent (size (visited st ∪ {[u]}))));
   AFetch u; AWrite (EResult (pageData st u))]
  ++ (if statusCode (pageData st u) =? 200 then [AResolve u; AFetch u] else []).

(** The addresses the [for] loop of that pass runs over. *)
Definition discovered (st : Crawl) (u : string) : list string :=
  if statusCode (pageData st u) =? 200
  then fst (extractUrls u baseUrl
              (logAtFetch st u ++ [AFetch u; AWrite (EResult (pageData st u))]))
  else [].

(** The state of that pass when the [for] loop is entered. *)
Definition beforeEnqueue (st : Crawl) (u : string) (rest : list string) : Crawl :=
  mkCrawl rest (visited st ∪ {[u]}) (results st ++ [pageData st u])
          (log st ++ passActions st u).

(** The states the loop goes through. *)
Inductive Reachable : Crawl -> Prop :=
| reach_start : Reachable (start baseUrl)
| reach_pass st :
    Reachable st -> guard st = true ->
    Reachable (iteration baseUrl st).

End Passes.

(** The frontier holds no address twice and none that was visited, and the
    pending and the visited addresses together stay within the budget. *)
Definition Frontier (st : Crawl) : Prop :=
  NoDup (queue st) /\
  (forall u, u ∈ queue st -> u ∉ visited st) /\
  length (queue st) + size (visited st) <= MAX_URLS.

(** The visited set, the results and the trace tell the same story. *)
Definition Ledger (st : Crawl) : Prop :=
  visited st = list_to_set (visits (log st)) /\
  NoDup (visits (log st)) /\
  url <$> results st = visits (log st) /\
  FreshEnqueues (log st) /\
  AClose ∉ log st.

(** Every address pushed onto the queue came through the host filter. *)
Definition Gated {platform : Platform} (baseUrl : string) (st : Crawl) : Prop :=
  forall u, AEnqueue u ∈ log st -> SameHostLink baseUrl u.

(** ** Sites used to run the engine *)

Module Sites.

Definition seed : string := "https://a.com".

(** The home page: five links, one of them to another host. *)
Definition home : Document :=
  [Plain.a "/b"; Plain.a "c/"; Plain.a "https://other.org/x";
   Plain.a "#top"; Plain.a "/b?page=2"].

Definition pages : Plain.Pages :=
  [("home", home);
   ("b", [Plain.a "/"; Plain.a "https://A.com/d//"]);
   ("c", [])].

(** Every address answers 200 with an HTML document. *)
Definition plainSite : Plain.Site :=
  [("https://a.com", Plain.html "home");
   ("https://a.com/b", Plain.html "b");
   ("https://a.com/c", Plain.html "c")].

(** The seed answers 201 Created with an HTML document full of links. *)
Definition created : Response :=
  mkResponse 201 (Some "text/html") (Some "home").

Definition createdSite : Plain.Site := [("https://a.com", created)].

(** The seed answers 200 with an image. *)
Definition image : Response :=
  mkResponse 200 (Some "image/png") (Some "home").

Definition imageSite : Plain.Site := [("https://a.com", image)].

(** The platform that serves a site. *)
Definition serving (site : Plain.Site) : Platform :=
  {| URL := Plain.URL; load := Plain.load pages; fetch := Plain.fetch site;
     trim := Js.trim; countWords := Js.countTokens false;
     valueMatches := Plain.valueMatches |}.

(** The crawl of a site after [n] passes. *)
Definition crawlOf (site : Plain.Site) (n : nat) : Crawl :=
  after (platform := serving site) n seed.

(** The first pass over a site, from the initial state. *)
Definition firstPass (site : Plain.Site) : Crawl :=
  iteration (platform := serving site) seed (start seed).

(** The chunks a reply delivers. *)
Definition streamOf (r : Reply) : list Event :=
  match r with
  | Streaming (Some st) => written (log st)
  | _ => []
  end.

(** The reply to a request for [domain] on a site. *)
Definition request (site : Plain.Site) (domain : option string) : Reply :=
  GET (platform := serving site) MAX_URLS domain.

End Sites.


(** ** Further vocabulary of the trace *)

(** The addresses passed to [queue.push], in order. *)
Definition pushes (l : list Action) : list string :=
  omap (fun a => match a with AEnqueue u => Some u | _ => None end) l.

(** The values of the progress events among the chunks of a stream. *)
Definition progressValues (es : list Event) : list nat :=
  omap (fun e => match e with EProgress v => Some v | _ => None end) es.

(** The chunks that the passes building the records [rs] write, when [k]
    addresses were visited before them: for each record the progress of its
    visit, then the record. *)
Fixpoint chunksOf (k : nat) (rs : list SeoData) : list Event :=
  match rs with
  | [] => []
  | r :: rs' => EProgress (percent (S k)) :: EResult r :: chunksOf (S k) rs'
  end.

(** ** The results page (src/unnamed/part_000)

    The computations of the component that shows the records: the search
    filter, the pages of ten, the pagination bar and the CSV export. The state
    of the component ([results], [searchTerm], [currentPage]) is passed as
    arguments. *)

Module Page.

Section Search.

(** [s.toLowerCase()], a parameter: the platform lowers the letters of every
    script. *)
Variable toLowerCase : string -> string.

(** The predicate of the filter (lines 105-109). *)
Definition matches (searchTerm : string) (item : SeoData) : bool :=
  Js.includes (toLowerCase (url item)) (toLowerCase searchTerm)
  || Js.includes (toLowerCase (title item)) (toLowerCase searchTerm)
  || Js.includes (toLowerCase (metaDescription item)) (toLowerCase searchTerm).

(** [filteredResults] (lines 104-110). *)
Definition filteredResults (results : list SeoData) (searchTerm : string)
  : list SeoData :=
  List.filter (matches searchTerm) results.

End Search.

(** The index that [slice] makes of an integer argument [k] for an array of
    length [len]: counted from the end when negative, and clamped. *)
Definition relativeIndex (len k : Z) : Z :=
  if (k <? 0)%Z then Z.max (len + k) 0 else Z.min k len.

(** [l.slice(start, end)] for integer arguments. *)
Definition slice {A} (l : list A) (first final : Z) : list A :=
  let len := Z.of_nat (length l) in
  let k := relativeIndex len first in
  let e := relativeIndex len final in
  take (Z.to_nat (e - k)) (drop (Z.to_nat k) l).

Definition itemsPerPage : Z := 10.

(** [paginatedResults] (line 113). *)
Definition paginatedResults (filtered : list SeoData) (currentPage : Z)
  : list SeoData :=
  slice filtered ((currentPage - 1) * itemsPerPage)%Z (currentPage * itemsPerPage)%Z.

(** [totalPages] (line 115): [Math.ceil(length / itemsPerPage)]. The quotient
    of a length by ten is an integer or at least a tenth away from one, so
    the rounding of the division does not change its ceiling. *)
Definition totalPages (filtered : list SeoData) : Z :=
  ((Z.of_nat (length filtered) + (itemsPerPage - 1)) / itemsPerPage)%Z.

(** An entry of the pagination bar: the link to page [i], or the dots that
    stand at position [i]. *)
Inductive PaginationItem :=
| PageLink (i : Z) (isActive : bool)
| Dots (i : Z).

(** The body of the loop of lines 119-135 for one [i]. *)
Definition paginationItem (currentPage total i : Z) : option PaginationItem :=
  if ((i =? 1) || (i =? total)
      || ((currentPage - 1 <=? i) && (i <=? currentPage + 1)))%Z
  then Some (PageLink i (i =? currentPage)%Z)
  else if ((i =? currentPage - 2) || (i =? currentPage + 2))%Z
  then Some (Dots i)
  else None.

(** [paginationItems] (lines 118-135): [i] runs from 1 to [total]. *)
Definition paginationItems (currentPage total : Z) : list PaginationItem :=
  omap (paginationItem currentPage total) (seqZ 1 total).

(** The handlers of the previous and next buttons (lines 391 and 400 of the
    file): [Math.max(prev - 1, 1)] and [Math.min(prev + 1, totalPages)]. *)
Definition previousPage (prev : Z) : Z := Z.max (prev - 1) 1.
Definition nextPage (prev total : Z) : Z := Z.min (prev + 1) total.

(** The quote character and the line feed. *)
Definition quote : ascii := ascii_of_nat 34.
Definition lineFeed : string := String (ascii_of_nat 10) EmptyString.

(** [s.replace] of every quote character by two of them (the global pattern
    of lines 158, 159 and 161). *)
Fixpoint doubleQuotes (s : string) : string :=
  match s with
  | EmptyString => EmptyString
  | String a r =>
      if Ascii.eqb a quote then String quote (String quote (doubleQuotes r))
      else String a (doubleQuotes r)
  end.

(** The template that puts a string between quotes. *)
Definition quoted (s : string) : string :=
  String quote (s +:+ String quote EmptyString).

(** A count as [join] prints it: in decimal. *)
Definition decimal (n : nat) : string :=
  NilZero.string_of_uint (Nat.to_uint n).

(** [a.join(sep)] *)
Definition join (sep : string) (a : list string) : string := String.concat sep a.

Definition headers : list string :=
  ["URL"; "Status"; "Title"; "Meta Description"; "Canonical"; "H1";
   "H2 Count"; "Image Count"; "Images with Alt"; "Word Count"].

(** The fields of the row of one record (lines 155-166). *)
Definition csvFields (item : SeoData) : list string :=
  [quoted (url item);
   decimal (statusCode item);
   quoted (doubleQuotes (title item));
   quoted (doubleQuotes (metaDescription item));
   quoted (canonical item);
   quoted (doubleQuotes (h1 item));
   decimal (h2Count item);
   decimal (imgCount item);
   decimal (imgWithAlt item);
   decimal (wordCount item)].

(** [csvRows] and [csvContent] (lines 152-170). *)
Definition csvRows (filtered : list SeoData) : list string :=
  join "," headers :: ((fun item => join "," (csvFields item)) <$> filtered).

Definition csvContent (filtered : list SeoData) : string :=
  join lineFeed (csvRows filtered).

(** A reader of quoted fields, as the consumers of CSV files have it: after
    the opening quote, a doubled quote stands for one quote and a single one
    ends the field. It returns the field and what follows it. *)
Fixpoint readQuotedBody (s : string) : option (string * string) :=
  match s with
  | EmptyString => None
  | String a r =>
      if Ascii.eqb a quote then
        match r with
        | String b r' =>
            if Ascii.eqb b quote
            then prod_map (String quote) id <$> readQuotedBody r'
            else Some (EmptyString, r)
        | EmptyString => Some (EmptyString, EmptyString)
        end
      else prod_map (String a) id <$> readQuotedBody r
  end.

Definition readQuoted (s : string) : option (string * string) :=
  match s with
  | String a r => if Ascii.eqb a quote then readQuotedBody r else None
  | EmptyString => None
  end.

(** Three records to run the page on. *)
Definition sample : list SeoData :=
  [mkSeoData "https://a.com" 200 "Home" "Welcome" EmptyString "Home" 2 3 1 120;
   mkSeoData "https://a.com/b" 200 "About" "Who we are" EmptyString "About" 0 0 0 40;
   mkSeoData "https://a.com/c" 404 EmptyString EmptyString EmptyString EmptyString 0 0 0 0].

End Page.

(** ** Facts about the string operations *)

Lemma before_occurs c s : occurs c (Js.before c s) = false.
Proof.
  induction s as [|a r IH]; simpl; [done|].
  destruct (Ascii.eqb a c) eqn:E; simpl; [done|]. by rewrite E.
Qed.

Lemma before_keeps_absent c d s :
  occurs d s = false -> occurs d (Js.before c s) = false.
Proof.
  induction s as [|a r IH]; simpl; [done|].
  intros [Ha Hr]%orb_false_iff.
  destruct (Ascii.eqb a c); simpl; [done|]. by rewrite Ha, IH.
Qed.

Lemma before_absent c s : occurs c s = false -> Js.before c s = s.
Proof.
  induction s as [|a r IH]; simpl; [done|].
  intros [Ha Hr]%orb_false_iff. rewrite Ha. by rewrite IH.
Qed.

Lemma dropLast_keeps_absent d s :
  occurs d s = false -> occurs d (Js.dropLast s) = false.
Proof.
  induction s as [|a r IH]; simpl; [done|].
  intros [Ha Hr]%orb_false_iff.
  destruct r as [|b r']; [done|].
  change (occurs d (String a (Js.dropLast (String b r'))) = false).
  simpl occurs at 1. rewrite Ha. by apply IH.
Qed.

Lemma dropLast_cons a b r :
  Js.dropLast (String a (String b r)) = String a (Js.dropLast (String b r)).
Proof. done. Qed.

Lemma endsWith_cons a b r p :
  Js.endsWith (String a (String b r)) (String p EmptyString)
  = Js.endsWith (String b r) (String p EmptyString).
Proof.
  change (Js.endsWith (String a (String b r)) (String p EmptyString))
    with (String.eqb (String a (String b r)) (String p EmptyString)
          || Js.endsWith (String b r) (String p EmptyString)).
  cbn [String.eqb]. by destruct (Ascii.eqb a p).
Qed.

Lemma dropLast_slash s :
  Js.endsWith s "/" = true -> Js.dropLast s +:+ "/" = s.
Proof.
  induction s as [|a r IH]; [done|].
  destruct r as [|b r'].
  - simpl. destruct (Ascii.eqb_spec a "/") as [->|]; [done|]. discriminate.
  - rewrite endsWith_cons, dropLast_cons. intros H.
    change (String a (Js.dropLast (String b r') +:+ "/") = String a (String b r')).
    f_equal. by apply IH.
Qed.

Lemma startsWith_nonempty s p :
  p <> EmptyString -> Js.startsWith s p = true -> s <> EmptyString.
Proof. intros Hp H ->. destruct p; [done|]. discriminate. Qed.

(** What [stripUrl] returns holds neither a fragment nor a query mark. *)
Lemma stripUrl_clean fullUrl baseUrl :
  occurs "#" (stripUrl fullUrl baseUrl) = false /\
  occurs "?" (stripUrl fullUrl baseUrl) = false.
Proof.
  unfold stripUrl.
  assert (occurs "#" (Js.before "?" (Js.before "#" fullUrl)) = false) as H1
    by apply before_keeps_absent, before_occurs.
  assert (occurs "?" (Js.before "?" (Js.before "#" fullUrl)) = false) as H2
    by apply before_occurs.
  case_match; split; auto using dropLast_keeps_absent.
Qed.

(** On a string without fragment and query mark, [stripUrl] only looks at the
    trailing slash. *)
Lemma stripUrl_of_clean s baseUrl :
  occurs "#" s = false -> occurs "?" s = false ->
  stripUrl s baseUrl =
    if Js.endsWith s "/" && negb (String.eqb s baseUrl) then Js.dropLast s else s.
Proof.
  intros H1 H2. unfold stripUrl. by rewrite (before_absent "#"), (before_absent "?").
Qed.

(** ** The link normaliser *)

Section Normaliser.

Context {platform : Platform}.

Lemma normalize_inv href pageUrl baseUrl n :
  normalize href pageUrl baseUrl = Some n ->
  exists fullUrl,
    resolveHref href pageUrl baseUrl = Some fullUrl /\
    sameHost fullUrl baseUrl = true /\
    n = stripUrl fullUrl baseUrl.
Proof.
  unfold normalize. destruct (String.eqb href EmptyString); [done|].
  destruct (resolveHref href pageUrl baseUrl) as [fullUrl|]; [|done].
  destruct (sameHost fullUrl baseUrl) eqn:E; [|done].
  intros [= <-]. eauto.
Qed.

Lemma sameHost_inv fullUrl baseUrl :
  sameHost fullUrl baseUrl = true ->
  exists urlObj baseUrlObj,
    URL fullUrl = Some urlObj /\ URL baseUrl = Some baseUrlObj /\
    host urlObj = host baseUrlObj.
Proof.
  unfold sameHost. destruct (URL fullUrl) as [u|]; [|done].
  destruct (URL baseUrl) as [b|]; [|done].
  intros H%String.eqb_eq. eauto.
Qed.

Lemma normalize_same_host href pageUrl baseUrl n :
  normalize href pageUrl baseUrl = Some n -> SameHostLink baseUrl n.
Proof.
  intros (fullUrl & _ & (u & b & Hu & Hb & Hh)%sameHost_inv & ->)%normalize_inv.
  exists fullUrl, u, b. by rewrite Hh.
Qed.

(** C8, as amended. A link that [normalize] returned is returned unchanged
    when it is fed to [normalize] again, from whatever page, provided it is
    still taken by the absolute branch and the host filter (it begins with
    [http] and parses to the host of the seed) and it either does not end
    with a slash or is the seed itself. *)
Theorem normalize_idempotent_without_trailing_slash
    href pageUrl pageUrl' baseUrl n :
  normalize href pageUrl baseUrl = Some n ->
  Js.startsWith n "http" = true ->
  sameHost n baseUrl = true ->
  Js.endsWith n "/" = false \/ n = baseUrl ->
  normalize n pageUrl' baseUrl = Some n.
Proof.
  intros (fullUrl & _ & _ & ->)%normalize_inv Hhttp Hhost Hslash.
  destruct (stripUrl_clean fullUrl baseUrl) as [Hfrag Hquery].
  set (n := stripUrl fullUrl baseUrl) in *.
  unfold normalize.
  assert (String.eqb n EmptyString = false) as ->.
  { apply String.eqb_neq. by apply (startsWith_nonempty n "http"). }
  unfold resolveHref. rewrite Hhttp, Hhost.
  rewrite stripUrl_of_clean by done.
  destruct Hslash as [-> | ->]; [done|].
  by rewrite String.eqb_refl, andb_false_r.
Qed.

(** C9. When the resolved same-host address, stripped of its fragment and
    query, ends with a slash, [normalize] removes that one slash unless the
    stripped address is the seed string itself; then the slash is kept and
    the address is returned as it is. *)
Theorem trailing_slash_stripped_unless_seed
    href pageUrl baseUrl fullUrl :
  href <> EmptyString ->
  resolveHref href pageUrl baseUrl = Some fullUrl ->
  sameHost fullUrl baseUrl = true ->
  Js.endsWith (Js.before "?" (Js.before "#" fullUrl)) "/" = true ->
  let cut := Js.before "?" (Js.before "#" fullUrl) in
  (cut <> baseUrl ->
     exists n, normalize href pageUrl baseUrl = Some n /\ n +:+ "/" = cut) /\
  (cut = baseUrl -> normalize href pageUrl baseUrl = Some cut).
Proof.
  intros Hne Hres Hhost Hslash cut.
  unfold normalize. apply String.eqb_neq in Hne. rewrite Hne, Hres, Hhost.
  unfold stripUrl. fold cut. fold cut in Hslash. rewrite Hslash. split.
  - intros Hcut%String.eqb_neq. rewrite Hcut. simpl.
    eexists; split; [done|]. by apply dropLast_slash.
  - intros Hcut%String.eqb_eq. by rewrite Hcut.
Qed.

End Normaliser.

(** ** Facts about the trace *)

Lemma visits_app l1 l2 : visits (l1 ++ l2) = visits l1 ++ visits l2.
Proof. apply omap_app. Qed.

Lemma elem_of_visits u l : u ∈ visits l <-> AVisit u ∈ l.
Proof.
  unfold visits. rewrite list_elem_of_omap. split.
  - intros (a & Ha & Hu). destruct a; naive_solver.
  - intros H. by exists (AVisit u).
Qed.

Lemma written_app l1 l2 : written (l1 ++ l2) = written l1 ++ written l2.
Proof. apply omap_app. Qed.

Lemma fetchCount_app l1 l2 : fetchCount (l1 ++ l2) = fetchCount l1 + fetchCount l2.
Proof. unfold fetchCount. by rewrite List.filter_app, length_app. Qed.

Lemma FreshEnqueues_nil : FreshEnqueues [].
Proof. intros l1 u l2 H. by destruct l1. Qed.

Lemma FreshEnqueues_snoc l a :
  FreshEnqueues l ->
  (forall u, a = AEnqueue u -> AVisit u ∉ l) ->
  FreshEnqueues (l ++ [a]).
Proof.
  intros Hl Ha l1 u l2 E.
  destruct l2 as [|b l2 _] using rev_ind.
  - apply app_inj_tail in E as [-> ->]. by apply Ha.
  - rewrite app_comm_cons, app_assoc in E.
    apply app_inj_tail in E as [-> _]. by eapply Hl.
Qed.

Lemma FreshEnqueues_app l l' :
  FreshEnqueues l ->
  (forall u, AEnqueue u ∉ l') ->
  FreshEnqueues (l ++ l').
Proof.
  revert l. induction l' as [|a l' IH]; intros l Hl Hno.
  - by rewrite app_nil_r.
  - change (a :: l') with ([a] ++ l'). rewrite (assoc_L (++) l [a] l'). apply IH.
    + apply FreshEnqueues_snoc; [done|]. intros u ->.
      exfalso. apply (Hno u). left.
    + intros u Hu. apply (Hno u). by right.
Qed.

(** ** The passes of the loop *)

Section Crawling.

Context {platform : Platform}.
Variable baseUrl : string.


(** *** The shape of a pass *)

Lemma iteration_skip st u rest :
  queue st = u :: rest -> u ∈ visited st ->
  iteration baseUrl st = mkCrawl rest (visited st) (results st) (log st).
Proof.
  intros Hq Hu. unfold iteration. rewrite Hq.
  by rewrite bool_decide_eq_true_2.
Qed.

Lemma analyzePage_log u l :
  snd (analyzePage u baseUrl l) = l ++ [AFetch u].
Proof. done. Qed.

Lemma extractUrls_log u l :
  snd (extractUrls u baseUrl l) = l ++ [AResolve u; AFetch u].
Proof. done. Qed.

Lemma iteration_pass st u rest :
  queue st = u :: rest -> u ∉ visited st ->
  iteration baseUrl st = foldl enqueue (beforeEnqueue baseUrl st u rest) (discovered baseUrl st u).
Proof.
  intros Hq Hu. unfold iteration. rewrite Hq.
  rewrite bool_decide_eq_false_2 by done.
  unfold beforeEnqueue, discovered, passActions,
    pageData.
  change (log st ++ [AVisit u; AWrite (EProgress (percent (size (visited st ∪ {[u]}))))])
    with (logAtFetch st u).
  pose proof (analyzePage_log u (logAtFetch st u)) as Hl.
  destruct (analyzePage u baseUrl (logAtFetch st u)) as [data log2].
  simpl in Hl. subst log2. cbn [fst].
  destruct (statusCode data =? 200).
  - pose proof (extractUrls_log u ((logAtFetch st u ++ [AFetch u]) ++ [AWrite (EResult data)])) as Hx.
    replace (logAtFetch st u ++ [AFetch u; AWrite (EResult data)])
      with ((logAtFetch st u ++ [AFetch u]) ++ [AWrite (EResult data)])
      by (by rewrite <- (assoc_L (++))).
    destruct (extractUrls u baseUrl
                ((logAtFetch st u ++ [AFetch u]) ++ [AWrite (EResult data)]))
      as [newUrls log4].
    simpl in Hx. subst log4. cbn [fst]. f_equal. f_equal.
    unfold logAtFetch. by rewrite <- !(assoc_L (++)).
  - cbn [foldl]. f_equal. unfold logAtFetch. by rewrite <- !(assoc_L (++)).
Qed.

Lemma guard_inv st :
  guard st = true ->
  (exists u rest, queue st = u :: rest) /\ size (visited st) < MAX_URLS.
Proof.
  unfold guard. intros [Hq Hv]%andb_true_iff.
  apply Nat.ltb_lt in Hq, Hv. split; [|done].
  destruct (queue st) as [|u rest]; [simpl in Hq; lia | eauto].
Qed.

(** *** What [enqueue] and the [for] loop change *)

Lemma enqueue_cases st x :
  enqueue st x = st \/
  ((x ∉ visited st) /\ (x ∉ queue st) /\
   length (queue st) + size (visited st) < MAX_URLS /\
   enqueue st x =
     mkCrawl (queue st ++ [x]) (visited st) (results st) (log st ++ [AEnqueue x])).
Proof.
  unfold enqueue.
  destruct (bool_decide (x ∈ visited st)) eqn:Hv; [by left|].
  destruct (bool_decide (x ∈ queue st)) eqn:Hq; [by left|].
  destruct (length (queue st) + size (visited st) <? MAX_URLS) eqn:Hb; [|by left].
  right. apply bool_decide_eq_false in Hv, Hq. apply Nat.ltb_lt in Hb. done.
Qed.

Lemma foldl_enqueue_ind (P : Crawl -> Prop) l st :
  P st ->
  (forall s x, x ∈ l -> P s -> P (enqueue s x)) ->
  P (foldl enqueue st l).
Proof.
  revert st. induction l as [|x l IH]; intros st Hst Hstep; [done|].
  simpl. apply IH.
  - apply Hstep; [left | done].
  - intros s y Hy. apply Hstep. by right.
Qed.

Lemma foldl_enqueue_visited l st :
  visited (foldl enqueue st l) = visited st /\
  results (foldl enqueue st l) = results st.
Proof.
  apply (foldl_enqueue_ind (fun s => visited s = visited st /\ results s = results st));
    [done|].
  intros s x _ [Hv Hr]. by destruct (enqueue_cases s x) as [-> | (_ & _ & _ & ->)].
Qed.

(** *** The frontier *)

Lemma Frontier_start : Frontier (start baseUrl).
Proof.
  split; [apply NoDup_singleton|]. split; [set_solver|].
  cbn [start queue visited length]. rewrite size_empty. unfold MAX_URLS. lia.
Qed.

Lemma Frontier_enqueue st x : Frontier st -> Frontier (enqueue st x).
Proof.
  intros (Hnd & Hdisj & Hsum).
  destruct (enqueue_cases st x) as [-> | (Hv & Hq & Hb & ->)]; [done|].
  split; [|split]; simpl.
  - apply NoDup_app. split; [done|]. split; [|apply NoDup_singleton].
    intros y Hy ->%list_elem_of_singleton. done.
  - intros y [Hy | ->%list_elem_of_singleton]%elem_of_app; auto.
  - rewrite length_app. simpl. lia.
Qed.

Lemma size_visit (X : gset string) u : u ∉ X -> size (X ∪ {[u]}) = S (size X).
Proof.
  intros Hu. rewrite size_union by set_solver. rewrite size_singleton. lia.
Qed.

Lemma Frontier_iteration st :
  Frontier st -> guard st = true -> Frontier (iteration baseUrl st).
Proof.
  intros (Hnd & Hdisj & Hsum) [(u & rest & Hq) Hlt]%guard_inv.
  rewrite Hq in Hnd, Hdisj, Hsum.
  assert (u ∉ visited st) as Hu by (apply Hdisj; left).
  rewrite (iteration_pass st u rest) by done.
  apply foldl_enqueue_ind; [|intros; by apply Frontier_enqueue].
  apply NoDup_cons in Hnd as [Hur Hrest].
  split; [|split]; simpl.
  - done.
  - intros y Hy [Hv | ->%elem_of_singleton]%elem_of_union; [|done].
    by apply (Hdisj y); [right|].
  - rewrite size_visit by done. simpl in Hsum. lia.
Qed.

Lemma size_iteration st :
  Frontier st -> guard st = true ->
  size (visited (iteration baseUrl st)) = S (size (visited st)).
Proof.
  intros (Hnd & Hdisj & Hsum) [(u & rest & Hq) Hlt]%guard_inv.
  assert (u ∉ visited st) as Hu by (apply Hdisj; rewrite Hq; left).
  rewrite (iteration_pass st u rest) by done.
  destruct (foldl_enqueue_visited (discovered baseUrl st u) (beforeEnqueue baseUrl st u rest)) as [-> _].
  simpl. by apply size_visit.
Qed.

(** *** The ledger *)

Lemma analyzePage_url u l : url (fst (analyzePage u baseUrl l)) = u.
Proof.
  unfold analyzePage. cbn [fst].
  destruct (fetch (fetchCount l) u) as [|r]; [done|].
  destruct (negb (ok r)); [done|]. destruct (negb (isHtml r)); [done|].
  destruct (text r) as [html|]; [|done]. by destruct (load html).
Qed.

Lemma pageData_url st u : url (pageData baseUrl st u) = u.
Proof. apply analyzePage_url. Qed.

Lemma passActions_visits st u : visits (passActions baseUrl st u) = [u].
Proof.
  unfold passActions. rewrite visits_app.
  by destruct (statusCode (pageData baseUrl st u) =? 200).
Qed.

Lemma passActions_quiet st u a :
  a ∈ passActions baseUrl st u -> a <> AClose /\ forall x, a <> AEnqueue x.
Proof.
  assert (Forall (fun b => b <> AClose /\ forall x, b <> AEnqueue x)
                 (passActions baseUrl st u)) as HF.
  { unfold passActions.
    destruct (statusCode (pageData baseUrl st u) =? 200); by repeat constructor. }
  rewrite Forall_forall in HF. apply HF.
Qed.

Lemma Ledger_start : Ledger (start baseUrl).
Proof.
  repeat split; try done.
  - apply NoDup_nil_2.
  - apply FreshEnqueues_nil.
  - apply not_elem_of_nil.
Qed.

Lemma Ledger_enqueue st x : Ledger st -> Ledger (enqueue st x).
Proof.
  intros (Hset & Hnd & Hres & Hfresh & Hopen).
  destruct (enqueue_cases st x) as [-> | (Hv & _ & _ & ->)]; [done|].
  unfold Ledger. cbn [visited results log].
  rewrite visits_app. cbn [visits omap]. rewrite app_nil_r.
  repeat split; try done.
  - apply FreshEnqueues_snoc; [done|]. intros y [= <-].
    rewrite <- elem_of_visits. rewrite Hset in Hv.
    by rewrite elem_of_list_to_set in Hv.
  - intros [H | H%list_elem_of_singleton]%elem_of_app; done.
Qed.

Lemma Ledger_beforeEnqueue st u rest :
  Ledger st -> u ∉ visited st -> Ledger (beforeEnqueue baseUrl st u rest).
Proof.
  intros (Hset & Hnd & Hres & Hfresh & Hopen) Hu.
  unfold Ledger, beforeEnqueue. cbn [visited results log].
  rewrite visits_app, passActions_visits.
  assert (u ∉ visits (log st)) as Hu'.
  { rewrite Hset in Hu. by rewrite elem_of_list_to_set in Hu. }
  repeat split.
  - by rewrite list_to_set_snoc_L, Hset.
  - apply NoDup_app. split; [done|]. split; [|apply NoDup_singleton].
    intros y Hy ->%list_elem_of_singleton. done.
  - rewrite fmap_app, Hres. cbn [fmap list_fmap]. by rewrite pageData_url.
  - apply FreshEnqueues_app; [done|].
    intros x [_ Hx]%passActions_quiet. by apply (Hx x).
  - intros [H | [H _]%passActions_quiet]%elem_of_app; done.
Qed.

Lemma Ledger_iteration st :
  Frontier st -> Ledger st -> guard st = true -> Ledger (iteration baseUrl st).
Proof.
  intros (_ & Hdisj & _) Hled [(u & rest & Hq) _]%guard_inv.
  assert (u ∉ visited st) as Hu by (apply Hdisj; rewrite Hq; left).
  rewrite (iteration_pass st u rest) by done.
  apply foldl_enqueue_ind; [|intros; by apply Ledger_enqueue].
  by apply Ledger_beforeEnqueue.
Qed.

(** *** The host filter *)

Lemma discoverLinks_same_host d pageUrl x :
  x ∈ discoverLinks d pageUrl baseUrl -> SameHostLink baseUrl x.
Proof.
  unfold discoverLinks.
  generalize (Cheerio.byTagAttr "a" "href" d). intros els.
  assert (forall y, y ∈ @nil string -> SameHostLink baseUrl y) as Hacc
    by (intros y Hy; by apply elem_of_nil in Hy).
  revert Hacc. generalize (@nil string). revert x.
  induction els as [|e els IH]; intros x acc Hacc; [by apply Hacc|].
  cbn [foldl]. apply IH.
  destruct (normalize (hrefOf e) pageUrl baseUrl) as [l|] eqn:E; [|done].
  unfold setAdd. case_bool_decide; [done|].
  intros y [Hy | ->%list_elem_of_singleton]%elem_of_app; [by apply Hacc|].
  by eapply normalize_same_host.
Qed.

Lemma extractUrls_same_host u l x :
  x ∈ fst (extractUrls u baseUrl l) -> SameHostLink baseUrl x.
Proof.
  unfold extractUrls. cbn [fst].
  destruct (fetch (fetchCount l) u) as [|r]; [by intros ?%elem_of_nil|].
  destruct (negb (ok r)); [by intros ?%elem_of_nil|].
  destruct (negb (isHtml r)); [by intros ?%elem_of_nil|].
  destruct (text r) as [html|]; [|by intros ?%elem_of_nil].
  destruct (load html) as [d|]; [|by intros ?%elem_of_nil].
  apply discoverLinks_same_host.
Qed.

Lemma discovered_same_host st u x :
  x ∈ discovered baseUrl st u -> SameHostLink baseUrl x.
Proof.
  unfold discovered.
  destruct (statusCode (pageData baseUrl st u) =? 200); [|by intros ?%elem_of_nil].
  apply extractUrls_same_host.
Qed.

Lemma Gated_iteration st :
  Frontier st -> Gated baseUrl st -> guard st = true ->
  Gated baseUrl (iteration baseUrl st).
Proof.
  intros (_ & Hdisj & _) Hg [(u & rest & Hq) _]%guard_inv.
  assert (u ∉ visited st) as Hu by (apply Hdisj; rewrite Hq; left).
  rewrite (iteration_pass st u rest) by done.
  apply foldl_enqueue_ind.
  - intros x [Hx | [_ Hx]%passActions_quiet]%elem_of_app;
      [by apply Hg | by destruct (Hx x)].
  - intros s x Hx Hs.
    destruct (enqueue_cases s x) as [-> | (_ & _ & _ & ->)]; [done|].
    intros y [Hy | [= ->]%list_elem_of_singleton]%elem_of_app; [by apply Hs|].
    by eapply discovered_same_host.
Qed.

(** *** Reachable states *)

Lemma Reachable_inv st :
  Reachable baseUrl st -> Frontier st /\ Ledger st /\ Gated baseUrl st.
Proof.
  induction 1 as [|st _ (HF & HL & HG) Hguard].
  - split; [apply Frontier_start|]. split; [apply Ledger_start|].
    intros u Hu. by apply elem_of_nil in Hu.
  - auto using Frontier_iteration, Ledger_iteration, Gated_iteration.
Qed.

Lemma after_Reachable n : Reachable baseUrl (after n baseUrl).
Proof.
  induction n as [|n IH]; [constructor|].
  cbn [after]. destruct (guard _) eqn:E; [by constructor | done].
Qed.

Lemma loop_Reachable fuel st st' :
  Reachable baseUrl st -> loop fuel baseUrl st = Some st' ->
  Reachable baseUrl st' /\ guard st' = false.
Proof.
  revert st. induction fuel as [|fuel IH]; intros st Hst; cbn [loop];
    destruct (guard st) eqn:E; try done.
  - by intros [= <-].
  - apply IH. by constructor.
  - by intros [= <-].
Qed.

(** The loop ends: every pass adds one address to [visited], which the guard
    keeps below the budget. *)
Lemma loop_total fuel st :
  Frontier st -> MAX_URLS <= fuel + size (visited st) ->
  exists st', loop fuel baseUrl st = Some st'.
Proof.
  revert st. induction fuel as [|fuel IH]; intros st HF Hfuel; cbn [loop];
    destruct (guard st) eqn:E; eauto.
  - apply guard_inv in E as [_ E]. lia.
  - apply IH; [by apply Frontier_iteration|].
    rewrite size_iteration by done. lia.
Qed.

End Crawling.

(** ** What a pass writes to the trace *)

Section Trace.

Context {platform : Platform}.
Variable baseUrl : string.


Lemma foldl_enqueue_log l st :
  exists pushed,
    log (foldl enqueue st l) = log st ++ (AEnqueue <$> pushed) /\
    queue (foldl enqueue st l) = queue st ++ pushed /\
    (forall x, x ∈ pushed -> x ∈ l).
Proof.
  revert st. induction l as [|x l IH]; intros st.
  - exists []. cbn [foldl fmap list_fmap]. by rewrite !app_nil_r.
  - cbn [foldl]. destruct (IH (enqueue st x)) as (pushed & Hlog & Hq & Hsub).
    destruct (enqueue_cases st x) as [E | (_ & _ & _ & E)];
      rewrite E in Hlog, Hq |- *.
    + exists pushed. split; [done|]. split; [done|].
      intros y Hy. right. by apply Hsub.
    + exists (x :: pushed). cbn [queue log] in Hlog, Hq.
      rewrite <- (assoc_L (++)) in Hlog. rewrite <- (assoc_L (++)) in Hq. split; [done|]. split; [done|].
      intros y [-> | Hy]%elem_of_cons; [left | right; by apply Hsub].
Qed.

Lemma iteration_log st u rest :
  queue st = u :: rest -> u ∉ visited st ->
  exists pushed,
    log (iteration baseUrl st) = log st ++ passActions baseUrl st u ++ (AEnqueue <$> pushed) /\
    queue (iteration baseUrl st) = rest ++ pushed /\
    (forall x, x ∈ pushed -> x ∈ discovered baseUrl st u).
Proof.
  intros Hq Hu. rewrite (iteration_pass _ st u rest) by done.
  destruct (foldl_enqueue_log (discovered baseUrl st u) (beforeEnqueue baseUrl st u rest))
    as (pushed & Hlog & Hqueue & Hsub).
  exists pushed. cbn [beforeEnqueue log queue] in Hlog, Hqueue.
  by rewrite <- (assoc_L (++)) in Hlog.
Qed.

Lemma iteration_log_prefix st : exists l, log (iteration baseUrl st) = log st ++ l.
Proof.
  destruct (queue st) as [|u rest] eqn:Hq.
  - exists []. unfold iteration. by rewrite Hq, app_nil_r.
  - destruct (decide (u ∈ visited st)) as [Hu|Hu].
    + exists []. by rewrite (iteration_skip _ st u rest), app_nil_r.
    + destruct (iteration_log st u rest) as (pushed & -> & _); eauto.
Qed.

Lemma loop_log_prefix fuel st st' :
  loop fuel baseUrl st = Some st' -> exists l, log st' = log st ++ l.
Proof.
  revert st. induction fuel as [|fuel IH]; intros st; cbn [loop];
    destruct (guard st); try done.
  - intros [= <-]. exists []. by rewrite app_nil_r.
  - intros (l & ->)%IH. destruct (iteration_log_prefix st) as (l' & ->).
    exists (l' ++ l). by rewrite (assoc_L (++)).
  - intros [= <-]. exists []. by rewrite app_nil_r.
Qed.

Lemma guard_start : guard (start baseUrl) = true.
Proof.
  unfold guard. cbn [start queue visited length]. by rewrite size_empty.
Qed.

Lemma AResolve_passActions st u :
  AResolve u ∈ passActions baseUrl st u <-> statusCode (pageData baseUrl st u) = 200.
Proof.
  unfold passActions.
  destruct (Nat.eqb_spec (statusCode (pageData baseUrl st u)) 200) as [E|E]; split; try done.
  - intros _. rewrite !elem_of_app, !elem_of_cons. auto.
  - rewrite app_nil_r, !elem_of_cons, elem_of_nil. intros [|[|[|[|]]]]; done.
Qed.

Lemma passActions_fetches st u :
  List.filter isFetch (passActions baseUrl st u) =
    if statusCode (pageData baseUrl st u) =? 200 then [AFetch u; AFetch u] else [AFetch u].
Proof.
  unfold passActions. by destruct (statusCode (pageData baseUrl st u) =? 200).
Qed.

Lemma enqueues_no_fetch (pushed : list string) :
  List.filter isFetch (AEnqueue <$> pushed) = [].
Proof. induction pushed as [|x l IH]; [done|]. by cbn. Qed.

Lemma fetchCount_logAtFetch st u : fetchCount (logAtFetch st u) = fetchCount (log st).
Proof. unfold logAtFetch. rewrite fetchCount_app. cbn. lia. Qed.

(** Links come only out of an HTML response with a status in the 200s to the
    request that [extractUrls] itself makes. *)
Lemma extractUrls_some u l x :
  x ∈ fst (extractUrls u baseUrl l) ->
  exists r, fetch (fetchCount l) u = FetchReturns r /\
            ok r = true /\ isHtml r = true.
Proof.
  unfold extractUrls. cbn [fst].
  destruct (fetch (fetchCount l) u) as [|r]; [by intros ?%elem_of_nil|].
  destruct (ok r) eqn:Hok; cbn [negb]; [|by intros ?%elem_of_nil].
  destruct (isHtml r) eqn:Hhtml; cbn [negb]; [|by intros ?%elem_of_nil].
  intros _. by exists r.
Qed.

End Trace.

(** ** The properties of the crawl *)

Section Crawl_properties.

Context {platform : Platform}.


(** C1. After any number of passes of the loop the visited set holds at most
    [MAX_URLS] = 500 addresses (and the pending and visited addresses
    together stay within that budget), and [enqueue] leaves the state as it
    is whenever the pending plus the visited addresses have reached the
    budget. *)
Theorem visited_within_budget baseUrl n :
  MAX_URLS = 500 /\
  size (visited (after n baseUrl)) <= MAX_URLS /\
  length (queue (after n baseUrl)) + size (visited (after n baseUrl)) <= MAX_URLS /\
  (forall st newUrl,
     MAX_URLS <= length (queue st) + size (visited st) -> enqueue st newUrl = st).
Proof.
  split; [done|].
  destruct (Reachable_inv _ _ (after_Reachable baseUrl n))
    as ((_ & _ & Hsum) & _).
  split; [lia|]. split; [done|].
  intros st newUrl Hfull.
  destruct (enqueue_cases st newUrl) as [E | (_ & _ & Hroom & _)]; [done | lia].
Qed.

(** C2. After any number of passes, no address was passed to [visited.add]
    twice, the visited set is the set of those addresses, every [queue.push]
    in the trace happened while its address was not yet visited, no pending
    address is a visited one, and no address occurs twice in [results]. *)
Theorem no_address_twice baseUrl n :
  NoDup (visits (log (after n baseUrl))) /\
  visited (after n baseUrl) = list_to_set (visits (log (after n baseUrl))) /\
  FreshEnqueues (log (after n baseUrl)) /\
  (forall u, u ∈ queue (after n baseUrl) -> u ∉ visited (after n baseUrl)) /\
  NoDup (url <$> results (after n baseUrl)).
Proof.
  destruct (Reachable_inv _ _ (after_Reachable baseUrl n))
    as ((_ & Hdisj & _) & (Hset & Hnd & Hres & Hfresh & _) & _).
  rewrite Hres. done.
Qed.

(** C4. The loop always exits, with the frontier empty or the budget reached;
    [analyzeWebsite] then writes one progress event of value 100 and closes
    the writer, which was not closed before, so the last chunk of the stream
    is that event. *)
Theorem final_progress_is_100 baseUrl :
  exists st final,
    loop MAX_URLS baseUrl (start baseUrl) = Some st /\
    guard st = false /\
    (queue st = [] \/ size (visited st) = MAX_URLS) /\
    (AClose ∉ log st) /\
    analyzeWebsite MAX_URLS baseUrl = Some final /\
    log final = log st ++ [AWrite (EProgress 100); AClose] /\
    last (written (log final)) = Some (EProgress 100).
Proof.
  destruct (loop_total baseUrl MAX_URLS (start baseUrl))
    as [st Hloop]; [apply Frontier_start | lia |].
  destruct (loop_Reachable _ _ _ _ (reach_start _) Hloop)
    as [Hreach Hguard].
  destruct (Reachable_inv _ _ Hreach)
    as ((_ & _ & Hsum) & (_ & _ & _ & _ & Hopen) & _).
  eexists st, _. unfold analyzeWebsite. rewrite Hloop.
  repeat split; try done.
  - unfold guard in Hguard. apply andb_false_iff in Hguard as [Hq | Hv].
    + left. apply Nat.ltb_ge in Hq. destruct (queue st); [done | simpl in Hq; lia].
    + right. apply Nat.ltb_ge in Hv. lia.
  - cbn [log]. rewrite written_app.
    change (written [AWrite (EProgress 100); AClose]) with [EProgress 100].
    apply last_snoc.
Qed.

(** C7. Every address pushed onto the queue is the stripped form of an
    absolute address whose parsed host is the parsed host of the seed: the two
    host strings are equal, hence equal whatever the case of their letters. *)
Theorem enqueued_links_same_host baseUrl n u :
  AEnqueue u ∈ log (after n baseUrl) -> SameHostLink baseUrl u.
Proof.
  destruct (Reachable_inv _ _ (after_Reachable baseUrl n))
    as (_ & _ & Hgated).
  apply Hgated.
Qed.

Lemma byTagAttr_le t a d :
  length (Cheerio.byTagAttr t a d) <= length (Cheerio.byTag t d).
Proof.
  unfold Cheerio.byTagAttr, Cheerio.byTag.
  induction d as [|e d IH]; [done|]. cbn [List.filter].
  destruct (String.eqb (tag e) t); cbn [andb]; [|done].
  destruct (Cheerio.hasAttr a e); cbn [length]; lia.
Qed.

(** C10. In every record that [analyzePage] returns, whatever the answer to
    its request, the number of images with an [alt] attribute is at most the
    number of images. *)
Theorem imgWithAlt_le_imgCount u baseUrl l :
  imgWithAlt (fst (analyzePage u baseUrl l)) <= imgCount (fst (analyzePage u baseUrl l)).
Proof.
  unfold analyzePage. cbn [fst].
  destruct (fetch (fetchCount l) u) as [|r]; [done|].
  destruct (negb (ok r)); [done|]. destruct (negb (isHtml r)); [done|].
  destruct (text r) as [html|]; [|done]. destruct (load html) as [d|]; [|done].
  apply byTagAttr_le.
Qed.

End Crawl_properties.

(** ** One pass, one address *)

Section Pass_properties.

Context {platform : Platform}.


Lemma pageData_200_iff baseUrl st u :
  statusCode (pageData baseUrl st u) = 200 <->
  exists r, fetch (fetchCount (log st)) u = FetchReturns r /\
            status r = 200 /\
            (isHtml r = true ->
               exists html d, text r = Some html /\ load html = Some d).
Proof.
  unfold pageData, analyzePage. cbn [fst]. rewrite fetchCount_logAtFetch.
  destruct (fetch (fetchCount (log st)) u) as [|r].
  - split; [done | by intros (r & [=] & _)].
  - destruct (ok r) eqn:Hok; cbn [negb].
    + destruct (isHtml r) eqn:Hhtml; cbn [negb].
      * destruct (text r) as [html|] eqn:Htext.
        -- destruct (load html) as [d|] eqn:Hload.
           ++ split.
              ** intros Hs. exists r. repeat split; [done|]. intros _. eauto.
              ** by intros (r' & [= <-] & Hs & _).
           ++ split; [done|].
              intros (r' & [= <-] & _ & H). destruct H as (h & d & Hh & Hd); [done|].
              rewrite Htext in Hh. injection Hh as <-. by rewrite Hload in Hd.
        -- split; [done|].
           intros (r' & [= <-] & _ & H). destruct H as (h & d & Hh & _); [done|].
           by rewrite Htext in Hh.
      * split.
        -- intros Hs. exists r. repeat split; [done|]. by rewrite Hhtml.
        -- by intros (r' & [= <-] & Hs & _).
    + split.
      * intros Hs. exists r. cbn [defaultRecord statusCode] in Hs.
        unfold ok in Hok. rewrite Hs in Hok. done.
      * intros (r' & [= <-] & Hs & _). unfold ok in Hok. rewrite Hs in Hok. done.
Qed.

(** C5, as amended. In the pass that visits [u], [extractUrls] is called if
    and only if the record built for [u] has status code exactly 200; and the
    record has that code if and only if the request was answered with status
    200 and the content either is not HTML or is HTML that was read and
    parsed. So it is not called after a failed request nor after any other
    status, the other statuses in the 200s included, and it is called for a
    page of status 200 that is not HTML. Without the call nothing is pushed.
    With it, an address is pushed only when the request that [extractUrls]
    makes itself is answered by an HTML response with a status in the
    200s. *)
Theorem resolver_runs_iff_status_200 baseUrl st u rest :
  queue st = u :: rest -> u ∉ visited st ->
  exists new,
    log (iteration baseUrl st) = log st ++ new /\
    results (iteration baseUrl st) = results st ++ [pageData baseUrl st u] /\
    (AResolve u ∈ new <-> statusCode (pageData baseUrl st u) = 200) /\
    (statusCode (pageData baseUrl st u) = 200 <->
       exists r, fetch (fetchCount (log st)) u = FetchReturns r /\
                 status r = 200 /\
                 (isHtml r = true ->
                    exists html d, text r = Some html /\ load html = Some d)) /\
    (statusCode (pageData baseUrl st u) <> 200 ->
       queue (iteration baseUrl st) = rest /\ forall x, AEnqueue x ∉ new) /\
    (forall x, AEnqueue x ∈ new ->
       exists r, fetch (S (fetchCount (log st))) u = FetchReturns r /\
                 ok r = true /\ isHtml r = true).
Proof.
  intros Hq Hu.
  destruct (iteration_log baseUrl st u rest Hq Hu)
    as (pushed & Hlog & Hqueue & Hsub).
  exists (passActions baseUrl st u ++ (AEnqueue <$> pushed)).
  assert (forall x, x ∈ pushed ->
            statusCode (pageData baseUrl st u) = 200 /\
            exists r, fetch (S (fetchCount (log st))) u = FetchReturns r /\
                      ok r = true /\ isHtml r = true) as Hpushed.
  { intros x Hx%Hsub. unfold discovered in Hx.
    destruct (Nat.eqb_spec (statusCode (pageData baseUrl st u)) 200) as [E|E];
      [|by apply elem_of_nil in Hx].
    split; [done|]. apply extractUrls_some in Hx as (r & Hr & Hok & Hhtml).
    exists r. split; [|done]. rewrite <- Hr. f_equal.
    rewrite fetchCount_app, fetchCount_logAtFetch. cbn. lia. }
  assert (forall x, AEnqueue x ∈ passActions baseUrl st u ++ (AEnqueue <$> pushed)
                    -> x ∈ pushed) as Hnew.
  { intros x [[_ H]%passActions_quiet | H]%elem_of_app; [by destruct (H x)|].
    apply list_elem_of_fmap in H as (y & [= ->] & Hy). done. }
  split; [done|]. split; [|split; [|split; [|split]]].
  - rewrite (iteration_pass _ st u rest) by done.
    by destruct (foldl_enqueue_visited (discovered baseUrl st u)
                   (beforeEnqueue baseUrl st u rest)) as [_ ->].
  - rewrite elem_of_app, AResolve_passActions. split; [|by left].
    intros [H | H]; [done|]. by apply list_elem_of_fmap in H as (y & [=] & _).
  - apply pageData_200_iff.
  - intros Hne. split.
    + destruct pushed as [|x pushed]; [by rewrite Hqueue, app_nil_r|].
      destruct (Hpushed x) as [E _]; [left | done].
    + intros x Hx%Hnew. by destruct (Hpushed x Hx).
  - intros x Hx%Hnew. by destruct (Hpushed x Hx).
Qed.


End Pass_properties.

(** ** The engine on concrete sites *)

(** The first pass over the plain site: of the five links of the home page,
    the one to another host and the fragment are dropped, and [/b] and
    [/b?page=2] are one address. *)
Example plain_site_first_pass :
  queue (Sites.firstPass Sites.plainSite) = ["https://a.com/b"; "https://a.com/c"].
Proof. vm_compute. reflexivity. Qed.

(** The whole crawl of the plain site: four addresses, each visited once, the
    last of them unreachable, and the stream ends with progress 100. *)
Example plain_site_crawl :
  Sites.streamOf (Sites.request Sites.plainSite (Some "a.com")) =
    [EProgress 0;
     EResult (extracted (platform := Sites.serving Sites.plainSite)
                "https://a.com" 200 Sites.home);
     EProgress 0; EResult (defaultRecord "https://a.com/b" 200);
     EProgress 1; EResult (defaultRecord "https://a.com/c" 200);
     EProgress 1; EResult (failureRecord "https://A.com/d/");
     EProgress 100].
Proof. vm_compute. reflexivity. Qed.

(** The theorem of C7 at the first pass over the plain site: the link [/b] of
    the home page is pushed, and it has the host of the seed. *)
Lemma enqueued_links_same_host_witness :
  AEnqueue "https://a.com/b" ∈ log (Sites.crawlOf Sites.plainSite 1) /\
  SameHostLink (platform := Sites.serving Sites.plainSite) Sites.seed "https://a.com/b".
Proof.
  assert (AEnqueue "https://a.com/b" ∈ log (Sites.crawlOf Sites.plainSite 1)) as H.
  { apply (list_elem_of_lookup_2 _ 6). vm_compute. reflexivity. }
  split; [exact H|].
  exact (enqueued_links_same_host (platform := Sites.serving Sites.plainSite)
           Sites.seed 1 "https://a.com/b" H).
Defined.

(** The theorem of C8 at the link [/b?page=2] of the home page. *)
Lemma normalize_idempotent_witness :
  normalize (platform := Sites.serving Sites.plainSite) "/b?page=2" Sites.seed Sites.seed = Some "https://a.com/b" /\
  normalize (platform := Sites.serving Sites.plainSite) "https://a.com/b" "https://a.com/c" Sites.seed
    = Some "https://a.com/b".
Proof.
  split; [reflexivity|].
  apply (normalize_idempotent_without_trailing_slash (platform := Sites.serving Sites.plainSite)
           "/b?page=2" Sites.seed "https://a.com/c" Sites.seed "https://a.com/b");
    [reflexivity | reflexivity | reflexivity | left; reflexivity].
Defined.

(** C8 as stated fails on a doubled trailing slash: each application of
    [normalize] removes one slash, so the second result differs from the
    first. *)
Lemma normalize_twice_differs :
  normalize (platform := Sites.serving Sites.plainSite) "https://a.com/d//" Sites.seed Sites.seed
    = Some "https://a.com/d/" /\
  normalize (platform := Sites.serving Sites.plainSite) "https://a.com/d/" Sites.seed Sites.seed
    = Some "https://a.com/d".
Proof. split; reflexivity. Qed.

(** The theorem of C9 at the link [c/] of the home page. *)
Lemma trailing_slash_witness :
  resolveHref (platform := Sites.serving Sites.plainSite) "c/" Sites.seed Sites.seed = Some "https://a.com/c/" /\
  exists n, normalize (platform := Sites.serving Sites.plainSite) "c/" Sites.seed Sites.seed = Some n /\
            n +:+ "/" = "https://a.com/c/".
Proof.
  split; [reflexivity|].
  apply (trailing_slash_stripped_unless_seed (platform := Sites.serving Sites.plainSite)
           "c/" Sites.seed Sites.seed "https://a.com/c/");
    [discriminate | reflexivity | reflexivity | reflexivity | discriminate].
Defined.

(** The slash rule around the seed. The comparison is made on the address
    with its slash: with the seed [https://a.com], the link [https://a.com/]
    loses its slash and becomes the seed; with the seed [https://a.com/], the
    same link is the seed and keeps its slash. *)
Example slash_rule_at_the_seed :
  normalize (platform := Sites.serving Sites.plainSite) "https://a.com/" "https://a.com" "https://a.com"
    = Some "https://a.com" /\
  Js.dropLast "https://a.com/" = "https://a.com" /\
  normalize (platform := Sites.serving Sites.plainSite) "https://a.com/" "https://a.com/" "https://a.com/"
    = Some "https://a.com/".
Proof. repeat split; reflexivity. Qed.

(** C3 as stated fails on a seed that does not parse: the request for the
    domain [not a domain] is not refused; the crawl runs and the stream
    carries a progress event, the failure record of the seed and the final
    progress event. *)
Lemma unparseable_seed_is_crawled :
  Plain.URL "https://not a domain" = None /\
  Sites.streamOf (Sites.request [] (Some "not a domain")) =
    [EProgress 0; EResult (failureRecord "https://not a domain"); EProgress 100].
Proof. split; vm_compute; reflexivity. Qed.

(** C5 as stated fails on a status in the 200s other than 200: the seed
    answers 201 with an HTML document full of links, and the first pass
    neither calls [extractUrls] nor pushes any address. It fails on content
    that is not HTML as well: the seed answers 200 with an image, and the
    first pass calls [extractUrls], which requests the image again. *)
Lemma created_page_not_resolved :
  ok Sites.created = true /\
  isHtml Sites.created = true /\
  log (Sites.firstPass Sites.createdSite) =
    [AVisit Sites.seed; AWrite (EProgress 0); AFetch Sites.seed;
     AWrite (EResult (extracted (platform := Sites.serving Sites.createdSite)
                        Sites.seed 201 Sites.home))] /\
  length (discoverLinks (platform := Sites.serving Sites.createdSite) Sites.home Sites.seed Sites.seed) = 2 /\
  queue (Sites.firstPass Sites.createdSite) = [] /\
  isHtml Sites.image = false /\
  log (Sites.firstPass Sites.imageSite) =
    [AVisit Sites.seed; AWrite (EProgress 0); AFetch Sites.seed;
     AWrite (EResult (defaultRecord Sites.seed 200));
     AResolve Sites.seed; AFetch Sites.seed].
Proof. repeat split; vm_compute; reflexivity. Qed.

(** The theorem of C5 at the first pass over the plain site. *)
Lemma resolver_runs_witness :
  exists new,
    log (Sites.firstPass Sites.plainSite) = log (start Sites.seed) ++ new /\
    (AResolve Sites.seed ∈ new <->
       statusCode (pageData (platform := Sites.serving Sites.plainSite)
                     Sites.seed (start Sites.seed) Sites.seed) = 200).
Proof.
  destruct (resolver_runs_iff_status_200 (platform := Sites.serving Sites.plainSite)
              Sites.seed (start Sites.seed)
              Sites.seed [] eq_refl (not_elem_of_empty _))
    as (new & Hlog & _ & Hiff & _).
  exists new. split; [exact Hlog | exact Hiff].
Defined.



(** ** More about the crawl: order, stream and requests *)

Lemma pushes_app l1 l2 : pushes (l1 ++ l2) = pushes l1 ++ pushes l2.
Proof. apply omap_app. Qed.

Lemma pushes_enqueues (pushed : list string) : pushes (AEnqueue <$> pushed) = pushed.
Proof. induction pushed as [|x l IH]; [done|]. cbn. f_equal. apply IH. Qed.

Lemma visits_enqueues (pushed : list string) : visits (AEnqueue <$> pushed) = [].
Proof. induction pushed as [|x l IH]; [done|]. apply IH. Qed.

Lemma written_enqueues (pushed : list string) : written (AEnqueue <$> pushed) = [].
Proof. induction pushed as [|x l IH]; [done|]. apply IH. Qed.

Lemma elem_of_pushes u l : u ∈ pushes l <-> AEnqueue u ∈ l.
Proof.
  unfold pushes. rewrite list_elem_of_omap. split.
  - intros (a & Ha & Hu). destruct a; try done. by injection Hu as ->.
  - intros Hu. by exists (AEnqueue u).
Qed.

Lemma percent_mono n m : n <= m -> percent n <= percent m.
Proof.
  intros Hnm. unfold percent.
  apply (Nat.Div0.div_le_mono _ _ (2 * MAX_URLS)). lia.
Qed.

Lemma percent_budget : percent MAX_URLS = 100.
Proof. by vm_compute. Qed.

Lemma chunksOf_snoc k rs r :
  chunksOf k (rs ++ [r]) =
    chunksOf k rs ++ [EProgress (percent (S (k + length rs))); EResult r].
Proof.
  revert k. induction rs as [|r' rs IH]; intros k; cbn [chunksOf app length].
  - by rewrite Nat.add_0_r.
  - rewrite IH. by replace (S k + length rs) with (k + S (length rs)) by lia.
Qed.

Lemma progressValues_app es1 es2 :
  progressValues (es1 ++ es2) = progressValues es1 ++ progressValues es2.
Proof. apply omap_app. Qed.

Lemma progressValues_chunksOf k rs :
  progressValues (chunksOf k rs) = (fun i => percent (S i)) <$> seq k (length rs).
Proof.
  revert k. induction rs as [|r rs IH]; intros k; [done|].
  cbn [chunksOf length seq fmap list_fmap].
  change (progressValues (EProgress (percent (S k)) :: EResult r :: chunksOf (S k) rs))
    with (percent (S k) :: progressValues (chunksOf (S k) rs)).
  by rewrite IH.
Qed.

Section Crawl_order.

Context {platform : Platform}.
Variable baseUrl : string.

Lemma pass_effect st :
  Frontier st -> guard st = true ->
  exists u rest pushed,
    queue st = u :: rest /\
    (u ∉ visited st) /\
    queue (iteration baseUrl st) = rest ++ pushed /\
    visited (iteration baseUrl st) = visited st ∪ {[u]} /\
    results (iteration baseUrl st) = results st ++ [pageData baseUrl st u] /\
    log (iteration baseUrl st) =
      log st ++ passActions baseUrl st u ++ (AEnqueue <$> pushed) /\
    (forall x, x ∈ pushed -> x ∈ discovered baseUrl st u).
Proof.
  intros (_ & Hdisj & _) [(u & rest & Hq) _]%guard_inv.
  assert (u ∉ visited st) as Hu by (apply Hdisj; rewrite Hq; left).
  destruct (iteration_log baseUrl st u rest Hq Hu) as (pushed & Hlog & Hqueue & Hsub).
  exists u, rest, pushed. repeat split; try done.
  - rewrite (iteration_pass _ st u rest) by done.
    by destruct (foldl_enqueue_visited (discovered baseUrl st u)
                   (beforeEnqueue baseUrl st u rest)) as [-> _].
  - rewrite (iteration_pass _ st u rest) by done.
    by destruct (foldl_enqueue_visited (discovered baseUrl st u)
                   (beforeEnqueue baseUrl st u rest)) as [_ ->].
Qed.

Lemma passActions_pushes st u : pushes (passActions baseUrl st u) = [].
Proof.
  unfold passActions. by destruct (statusCode (pageData baseUrl st u) =? 200).
Qed.

Lemma passActions_written st u :
  written (passActions baseUrl st u) =
    [EProgress (percent (size (visited st ∪ {[u]}))); EResult (pageData baseUrl st u)].
Proof.
  unfold passActions. by destruct (statusCode (pageData baseUrl st u) =? 200).
Qed.

(** The visited addresses followed by the pending ones are the seed followed
    by the pushed ones. *)
Lemma Reachable_order st :
  Reachable baseUrl st ->
  visits (log st) ++ queue st = baseUrl :: pushes (log st).
Proof.
  induction 1 as [|st Hreach IH Hguard]; [done|].
  destruct (Reachable_inv _ _ Hreach) as (HF & _).
  destruct (pass_effect st HF Hguard)
    as (u & rest & pushed & Hq & _ & -> & _ & _ & -> & _).
  rewrite Hq in IH.
  rewrite !visits_app, !pushes_app, passActions_visits, passActions_pushes,
    visits_enqueues, pushes_enqueues, app_nil_r. cbn [app].
  rewrite (app_comm_cons (pushes (log st)) pushed baseUrl), <- IH.
  by rewrite <- !(assoc_L (++)).
Qed.

(** The stream so far is the progress and the record of each visit, and there
    are as many records as visited addresses. *)
Lemma Reachable_stream st :
  Reachable baseUrl st ->
  written (log st) = chunksOf 0 (results st) /\
  length (results st) = size (visited st).
Proof.
  induction 1 as [|st Hreach [IHw IHn] Hguard].
  - split; [done|]. cbn [start results visited length]. by rewrite size_empty.
  - destruct (Reachable_inv _ _ Hreach) as (HF & _).
    destruct (pass_effect st HF Hguard)
      as (u & rest & pushed & _ & Hu & _ & -> & -> & -> & _).
    rewrite !written_app, passActions_written, written_enqueues, app_nil_r.
    rewrite chunksOf_snoc, length_app, size_visit by done.
    cbn [length]. rewrite IHw, IHn. split; [done | lia].
Qed.

(** Each visit costs one call of [fetch], or two. *)
Lemma Reachable_fetches st :
  Reachable baseUrl st ->
  size (visited st) <= fetchCount (log st) <= 2 * size (visited st).
Proof.
  induction 1 as [|st Hreach IH Hguard].
  - cbn [start log visited]. rewrite size_empty. by cbn.
  - destruct (Reachable_inv _ _ Hreach) as (HF & _).
    destruct (pass_effect st HF Hguard)
      as (u & rest & pushed & _ & Hu & _ & -> & _ & -> & _).
    rewrite size_visit by done. rewrite !fetchCount_app.
    assert (fetchCount (AEnqueue <$> pushed) = 0) as ->
      by (unfold fetchCount; by rewrite enqueues_no_fetch).
    assert (1 <= fetchCount (passActions baseUrl st u) <= 2) as Hpass.
    { unfold fetchCount. rewrite passActions_fetches.
      destruct (statusCode (pageData baseUrl st u) =? 200); cbn [length]; lia. }
    lia.
Qed.

Lemma after_log_prefix n m :
  n <= m -> exists l, log (after m baseUrl) = log (after n baseUrl) ++ l.
Proof.
  induction 1 as [|m _ (l & IH)]; [exists []; by rewrite app_nil_r|].
  cbn [after]. destruct (guard (after m baseUrl)).
  - destruct (iteration_log_prefix baseUrl (after m baseUrl)) as (l' & ->).
    exists (l ++ l'). by rewrite IH, (assoc_L (++)).
  - by exists l.
Qed.

Lemma after_one :
  visits (log (after 1 baseUrl)) = baseUrl :: [] /\
  exists l, log (after 1 baseUrl) = AVisit baseUrl :: l.
Proof.
  cbn [after]. rewrite guard_start.
  destruct (iteration_log baseUrl (start baseUrl) baseUrl [])
    as (pushed & -> & _); [done | apply not_elem_of_empty |].
  cbn [start log app]. split.
  - by rewrite visits_app, passActions_visits, visits_enqueues.
  - unfold passActions. cbn [app]. eauto.
Qed.

End Crawl_order.

Lemma StronglySorted_fmap_seq (f : nat -> nat) k n :
  (forall i j, i <= j -> f i <= f j) ->
  StronglySorted le (f <$> seq k n).
Proof.
  intros Hf. revert k. induction n as [|n IH]; intros k; [constructor|].
  cbn [seq fmap list_fmap]. constructor; [apply IH|].
  apply Forall_fmap, Forall_forall. intros j [Hj _]%elem_of_seq.
  apply Hf. lia.
Qed.

Lemma setAdd_NoDup links x : NoDup links -> NoDup (setAdd links x).
Proof.
  intros Hnd. unfold setAdd. case_bool_decide; [done|].
  apply NoDup_app. split; [done|]. split; [|apply NoDup_singleton].
  intros y Hy ->%list_elem_of_singleton. done.
Qed.

Section Crawl_extras.

Context {platform : Platform}.

(** X1. Breadth first. After any number of passes, the addresses visited so
    far followed by the pending ones are exactly the seed followed by the
    addresses pushed so far, in the order of pushing; and no address is ever
    pushed twice, nor is the seed pushed again. *)
Theorem visited_in_discovery_order baseUrl n :
  visits (log (after n baseUrl)) ++ queue (after n baseUrl)
    = baseUrl :: pushes (log (after n baseUrl)) /\
  NoDup (baseUrl :: pushes (log (after n baseUrl))).
Proof.
  pose proof (after_Reachable baseUrl n) as Hreach.
  pose proof (Reachable_order baseUrl _ Hreach) as Horder.
  destruct (Reachable_inv _ _ Hreach)
    as ((Hq & Hdisj & _) & (Hset & Hv & _) & _).
  split; [done|]. rewrite <- Horder. apply NoDup_app. split; [done|].
  split; [|done]. intros x Hx Hxq. apply (Hdisj x Hxq).
  rewrite Hset. by apply elem_of_list_to_set.
Qed.

(** X2. Once the first pass is done, the record of the seed is the first of
    the results; the results are the records of the visited addresses, one
    for each, in the order of the visits. *)
Theorem seed_is_first_record baseUrl n :
  url <$> results (after (S n) baseUrl) = visits (log (after (S n) baseUrl)) /\
  length (results (after (S n) baseUrl)) = size (visited (after (S n) baseUrl)) /\
  exists r rs, results (after (S n) baseUrl) = r :: rs /\ url r = baseUrl.
Proof.
  pose proof (after_Reachable baseUrl (S n)) as Hreach.
  destruct (Reachable_inv _ _ Hreach) as (_ & (_ & _ & Hres & _) & _).
  destruct (Reachable_stream _ _ Hreach) as [_ Hlen].
  split; [done|]. split; [done|].
  destruct (after_log_prefix baseUrl 1 (S n)) as (l & Hl); [lia|].
  destruct (after_one baseUrl) as [_ (l' & Hone)].
  rewrite Hone in Hl. rewrite Hl in Hres.
  destruct (results (after (S n) baseUrl)) as [|r rs]; [done|].
  exists r, rs. split; [done|]. by injection Hres.
Qed.

(** X3. The stream is determined by the results: at every step the chunks
    written so far are, for each record in turn, the progress of its visit
    (the rounded percentage of its rank in the budget) and the record; the
    finished crawl adds the progress 100. *)
Theorem stream_follows_results baseUrl :
  (forall n, written (log (after n baseUrl)) = chunksOf 0 (results (after n baseUrl))) /\
  exists final,
    analyzeWebsite MAX_URLS baseUrl = Some final /\
    written (log final) = chunksOf 0 (results final) ++ [EProgress 100].
Proof.
  split.
  - intros n. by destruct (Reachable_stream _ _ (after_Reachable baseUrl n)).
  - destruct (loop_total baseUrl MAX_URLS (start baseUrl))
      as [st Hloop]; [apply Frontier_start | lia |].
    destruct (loop_Reachable _ _ _ _ (reach_start _) Hloop) as [Hreach _].
    destruct (Reachable_stream _ _ Hreach) as [Hw _].
    eexists. unfold analyzeWebsite. rewrite Hloop. split; [done|].
    cbn [log results]. by rewrite written_app, Hw.
Qed.

(** X4. The progress values of a finished crawl never decrease along the
    stream and never exceed 100. *)
Theorem progress_never_decreases baseUrl :
  exists final,
    analyzeWebsite MAX_URLS baseUrl = Some final /\
    StronglySorted le (progressValues (written (log final))) /\
    Forall (fun v => v <= 100) (progressValues (written (log final))).
Proof.
  destruct (loop_total baseUrl MAX_URLS (start baseUrl))
    as [st Hloop]; [apply Frontier_start | lia |].
  destruct (loop_Reachable _ _ _ _ (reach_start _) Hloop) as [Hreach _].
  destruct (Reachable_stream _ _ Hreach) as [Hw Hlen].
  destruct (Reachable_inv _ _ Hreach) as ((_ & _ & Hsum) & _).
  eexists. unfold analyzeWebsite. rewrite Hloop. split; [done|].
  cbn [log]. rewrite written_app, Hw, progressValues_app, progressValues_chunksOf.
  change (progressValues (written [AWrite (EProgress 100); AClose])) with [100].
  assert (forall v, v ∈ (fun i => percent (S i)) <$> seq 0 (length (results st)) ->
                    v <= 100) as Hle.
  { intros v (i & -> & [_ Hi]%elem_of_seq)%list_elem_of_fmap.
    rewrite <- percent_budget. apply percent_mono. lia. }
  split.
  - apply StronglySorted_app_2.
    + intros v w Hv ->%list_elem_of_singleton. by apply Hle.
    + apply StronglySorted_fmap_seq. intros i j Hij. apply percent_mono. lia.
    + repeat constructor.
  - apply Forall_app. split; [by apply Forall_forall|]. by repeat constructor.
Qed.

(** X5. Requests are budgeted: after any number of passes the calls of
    [fetch] are at least as many as the visited addresses and at most twice
    as many, hence never more than twice the budget. *)
Theorem requests_within_twice_the_budget baseUrl n :
  size (visited (after n baseUrl)) <= fetchCount (log (after n baseUrl)) /\
  fetchCount (log (after n baseUrl)) <= 2 * size (visited (after n baseUrl)) /\
  fetchCount (log (after n baseUrl)) <= 2 * MAX_URLS.
Proof.
  pose proof (after_Reachable baseUrl n) as Hreach.
  destruct (Reachable_fetches _ _ Hreach) as [Hlo Hhi].
  destruct (Reachable_inv _ _ Hreach) as ((_ & _ & Hsum) & _).
  repeat split; [done | done | lia].
Qed.

(** X6. The links that [extractUrls] finds in a document are pairwise
    distinct, and none of them holds a fragment mark or a query mark. *)
Theorem discovered_links_distinct_and_clean d pageUrl baseUrl :
  NoDup (discoverLinks d pageUrl baseUrl) /\
  Forall (fun x => occurs "#" x = false /\ occurs "?" x = false)
         (discoverLinks d pageUrl baseUrl).
Proof.
  unfold discoverLinks.
  generalize (Cheerio.byTagAttr "a" "href" d). intros els.
  assert (NoDup (@nil string) /\
          Forall (fun x => occurs "#" x = false /\ occurs "?" x = false) (@nil string))
    as Hacc by (split; constructor).
  revert Hacc. generalize (@nil string).
  induction els as [|e els IH]; intros acc [Hnd Hclean]; [done|].
  cbn [foldl]. apply IH.
  destruct (normalize (hrefOf e) pageUrl baseUrl) as [l|] eqn:E; [|done].
  split; [by apply setAdd_NoDup|].
  unfold setAdd. case_bool_decide; [done|].
  apply Forall_app. split; [done|]. apply Forall_singleton.
  apply normalize_inv in E as (fullUrl & _ & _ & ->). apply stripUrl_clean.
Qed.

(** X7. The crawl never leaves the host of the seed: every record, at every
    step, is the record of the seed or of an address that came through the
    host filter. *)
Theorem records_on_seed_host baseUrl n :
  Forall (fun r => url r = baseUrl \/ SameHostLink baseUrl (url r))
         (results (after n baseUrl)).
Proof.
  pose proof (after_Reachable baseUrl n) as Hreach.
  pose proof (Reachable_order baseUrl _ Hreach) as Horder.
  destruct (Reachable_inv _ _ Hreach) as (_ & (_ & _ & Hres & _) & Hgated).
  apply Forall_forall. intros r Hr.
  assert (url r ∈ baseUrl :: pushes (log (after n baseUrl))) as Hin.
  { rewrite <- Horder, <- Hres. apply elem_of_app. left.
    apply list_elem_of_fmap. eauto. }
  apply elem_of_cons in Hin as [-> | Hin]; [by left|].
  right. by apply Hgated, elem_of_pushes.
Qed.

(** X8. No address pushed onto the queue holds a fragment mark or a query
    mark: only the seed can be fetched with either. *)
Theorem pushed_addresses_clean baseUrl n :
  Forall (fun u => occurs "#" u = false /\ occurs "?" u = false)
         (pushes (log (after n baseUrl))).
Proof.
  destruct (Reachable_inv _ _ (after_Reachable baseUrl n)) as (_ & _ & Hgated).
  apply Forall_forall. intros u Hu%elem_of_pushes.
  destruct (Hgated u Hu) as (fullUrl & _ & _ & _ & _ & _ & _ & ->).
  apply stripUrl_clean.
Qed.

End Crawl_extras.

(** ** More about the normaliser and the page analyser *)

Lemma lastIndexOf_from_absent c s i acc :
  occurs c s = false -> Js.lastIndexOf_from c s i acc = acc.
Proof.
  revert i acc. induction s as [|a r IH]; intros i acc; [done|].
  cbn [occurs Js.lastIndexOf_from]. intros [Ha Hr]%orb_false_iff.
  rewrite Ha. by apply IH.
Qed.

Lemma append_nil_l (y : string) : EmptyString +:+ y = y.
Proof. done. Qed.

Lemma append_cons a (x y : string) : String a x +:+ y = String a (x +:+ y).
Proof. done. Qed.

Lemma lastIndexOf_from_last c d f i acc :
  occurs c f = false ->
  Js.lastIndexOf_from c (d +:+ String c f) i acc = (i + Z.of_nat (String.length d))%Z.
Proof.
  intros Hf. revert i acc. induction d as [|a d IH]; intros i acc.
  - rewrite append_nil_l. cbn [Js.lastIndexOf_from String.length].
    rewrite Ascii.eqb_refl, lastIndexOf_from_absent by done. lia.
  - rewrite append_cons. cbn [Js.lastIndexOf_from String.length]. rewrite IH. lia.
Qed.

Lemma substring_prefix x y :
  String.substring 0 (String.length x) (x +:+ y) = x.
Proof.
  induction x as [|a x IH].
  - rewrite append_nil_l. by destruct y.
  - rewrite append_cons. cbn [String.length String.substring]. by rewrite IH.
Qed.

Lemma append_assoc_L (x y z : string) : (x +:+ y) +:+ z = x +:+ (y +:+ z).
Proof.
  induction x as [|a x IH]; [done|]. rewrite !append_cons. by rewrite IH.
Qed.

Lemma append_length (x y : string) :
  String.length (x +:+ y) = String.length x + String.length y.
Proof.
  induction x as [|a x IH]; [done|].
  rewrite append_cons. cbn [String.length]. by rewrite IH.
Qed.

(** The directory of a path: what the source takes of it up to its last
    slash. *)
Lemma directory_of_path dir file :
  occurs "/" file = false ->
  Js.substring0 (dir +:+ "/" +:+ file)
    (Js.lastIndexOf (dir +:+ "/" +:+ file) "/" + 1)%Z
  = dir +:+ "/".
Proof.
  intros Hfile. unfold Js.substring0, Js.lastIndexOf.
  change (dir +:+ "/" +:+ file) with (dir +:+ String "/" file).
  rewrite lastIndexOf_from_last by done.
  replace (Z.to_nat (0 + Z.of_nat (String.length dir) + 1))
    with (String.length (dir +:+ "/")) by (rewrite append_length; cbn; lia).
  change (dir +:+ String "/" file) with (dir +:+ ("/" +:+ file)).
  rewrite <- append_assoc_L. apply substring_prefix.
Qed.

Lemma directory_of_directory p :
  Js.endsWith p "/" = true ->
  Js.substring0 p (Js.lastIndexOf p "/" + 1)%Z = p.
Proof.
  intros Hp%dropLast_slash. rewrite <- Hp at 1 2.
  rewrite <- Hp at 3.
  apply (directory_of_path (Js.dropLast p) EmptyString eq_refl).
Qed.

Section Normaliser_extras.

Context {platform : Platform}.

(** X9. An [href] that is empty, or begins with the fragment mark, with
    [javascript:] or with [mailto:], contributes no link, whatever follows
    the prefix and whatever the platform says. *)
Theorem unusable_hrefs_rejected rest pageUrl baseUrl :
  normalize EmptyString pageUrl baseUrl = None /\
  normalize ("#" +:+ rest) pageUrl baseUrl = None /\
  normalize ("javascript:" +:+ rest) pageUrl baseUrl = None /\
  normalize ("mailto:" +:+ rest) pageUrl baseUrl = None.
Proof.
  assert (String.prefix EmptyString rest = true) as Hrest by (by destruct rest).
  unfold normalize, resolveHref, Js.startsWith.
  split; [reflexivity|].
  rewrite !append_cons, !append_nil_l.
  repeat split; cbn; by rewrite ?Hrest.
Qed.

(** X10. An absolute or root-relative [href] gives the same link on whatever
    page it stands: only relative links depend on the referring page. *)
Theorem rooted_links_ignore_the_page href pageUrl pageUrl' baseUrl :
  Js.startsWith href "http" = true \/ Js.startsWith href "/" = true ->
  normalize href pageUrl baseUrl = normalize href pageUrl' baseUrl.
Proof.
  intros H. unfold normalize, resolveHref.
  destruct (Js.startsWith href "http"); [done|].
  destruct H as [H | ->]; done.
Qed.

(** X11. A relative [href] is resolved in the directory of the referring
    page: when the path of the page is [dir/file], with no slash in [file]
    (which may be empty), the absolute form is the origin of the page, then
    [dir/], then the [href]. *)
Theorem relative_links_resolve_in_directory
    href pageUrl baseUrl urlObj dir file :
  URL pageUrl = Some urlObj ->
  pathname urlObj = dir +:+ "/" +:+ file ->
  occurs "/" file = false ->
  Js.startsWith href "http" = false ->
  Js.startsWith href "/" = false ->
  Js.startsWith href "#" = false ->
  Js.startsWith href "javascript:" = false ->
  Js.startsWith href "mailto:" = false ->
  resolveHref href pageUrl baseUrl =
    Some (protocol urlObj +:+ "//" +:+ host urlObj +:+ (dir +:+ "/") +:+ href).
Proof.
  intros Hurl Hpath Hfile Hhttp Hroot Hfrag Hjs Hmail.
  unfold resolveHref. rewrite Hhttp, Hroot, Hfrag, Hjs, Hmail, Hurl.
  cbn [negb andb].
  assert ((if Js.endsWith (pathname urlObj) "/" then pathname urlObj
           else Js.substring0 (pathname urlObj)
                  (Js.lastIndexOf (pathname urlObj) "/" + 1)%Z)
          = dir +:+ "/") as ->; [|done].
  destruct (Js.endsWith (pathname urlObj) "/") eqn:E.
  - rewrite <- (directory_of_directory _ E). rewrite Hpath.
    by apply directory_of_path.
  - rewrite Hpath. by apply directory_of_path.
Qed.


End Normaliser_extras.

(** The theorem of X10 at the link [/b?page=2] seen from two pages. *)
Lemma rooted_links_witness :
  normalize (platform := Sites.serving Sites.plainSite)
    "/b?page=2" "https://a.com/c" Sites.seed
  = normalize (platform := Sites.serving Sites.plainSite)
    "/b?page=2" "https://a.com/d/e" Sites.seed.
Proof.
  apply (rooted_links_ignore_the_page (platform := Sites.serving Sites.plainSite)).
  right. reflexivity.
Defined.

(** The theorem of X11 at the link [img/logo] on the page [/docs/intro]. *)
Lemma relative_links_witness :
  resolveHref (platform := Sites.serving Sites.plainSite)
    "img/logo" "https://a.com/docs/intro" Sites.seed
  = Some "https://a.com/docs/img/logo".
Proof.
  apply (relative_links_resolve_in_directory
           (platform := Sites.serving Sites.plainSite)
           "img/logo" "https://a.com/docs/intro" Sites.seed
           (mkURL "https:" "a.com" "/docs/intro") "/docs" "intro");
    reflexivity.
Defined.

(** ** The results page *)

Lemma includes_empty s : Js.includes s EmptyString = true.
Proof. by destruct s. Qed.

Lemma slice_range {A} (l : list A) (a b : Z) :
  (0 <= a <= b)%Z ->
  Page.slice l a b = take (Z.to_nat (b - a)) (drop (Z.to_nat a) l).
Proof.
  intros [Ha Hab]. unfold Page.slice, Page.relativeIndex.
  rewrite (proj2 (Z.ltb_ge a 0)), (proj2 (Z.ltb_ge b 0)) by lia.
  destruct (Z.le_gt_cases a (Z.of_nat (length l))) as [Hal|Hal].
  - rewrite (Z.min_l a) by lia.
    destruct (Z.le_gt_cases b (Z.of_nat (length l))) as [Hbl|Hbl].
    + by rewrite (Z.min_l b) by lia.
    + rewrite (Z.min_r b) by lia.
      rewrite !take_ge; [done | |]; rewrite length_drop; lia.
  - rewrite (Z.min_r a) by lia. rewrite !(drop_ge l) by lia.
    by rewrite !take_nil.
Qed.

(** The page numbered [k + 1] is the ten records after the first [10 k]. *)
Lemma paginated_page filtered (k : nat) :
  Page.paginatedResults filtered (Z.of_nat (S k)) = take 10 (drop (10 * k) filtered).
Proof.
  unfold Page.paginatedResults, Page.itemsPerPage.
  rewrite slice_range by lia. f_equal; [|f_equal]; lia.
Qed.

Lemma pages_concat {A} (l : list A) T :
  concat ((fun k => take 10 (drop (10 * k) l)) <$> seq 0 T) = take (10 * T) l.
Proof.
  induction T as [|T IH]; [done|].
  rewrite seq_S, fmap_app, concat_app, IH. cbn [fmap list_fmap concat].
  rewrite app_nil_r, take_take_drop. f_equal. lia.
Qed.

Lemma totalPages_bounds filtered :
  (0 <= Page.totalPages filtered)%Z /\
  length filtered <= 10 * Z.to_nat (Page.totalPages filtered) /\
  10 * Z.to_nat (Page.totalPages filtered) < length filtered + 10.
Proof.
  unfold Page.totalPages, Page.itemsPerPage.
  pose proof (Z.div_mod (Z.of_nat (length filtered) + (10 - 1)) 10) as Hdiv.
  pose proof (Z.mod_pos_bound (Z.of_nat (length filtered) + (10 - 1)) 10) as Hmod.
  lia.
Qed.

Lemma page_empty_iff filtered (p : Z) :
  (1 <= p)%Z ->
  Page.paginatedResults filtered p = [] <-> (Page.totalPages filtered < p)%Z.
Proof.
  intros Hp. replace p with (Z.of_nat (S (Z.to_nat (p - 1)))) at 1 by lia.
  rewrite paginated_page.
  destruct (totalPages_bounds filtered) as (H0 & Hlo & Hhi).
  split.
  - intros H%(f_equal length). rewrite length_take, length_drop in H.
    cbn [length] in H. lia.
  - intros H. apply nil_length_inv. rewrite length_take, length_drop. lia.
Qed.

Lemma omap_length_filter {A B} (f : A -> option B) (P : A -> Prop)
    `{!forall x, Decision (P x)} (l : list A) :
  (forall x, is_Some (f x) -> P x) ->
  length (omap f l) <= length (filter P l).
Proof.
  intros HP. induction l as [|x l IH]; [done|].
  rewrite filter_cons. cbn [omap list_omap].
  destruct (f x) as [y|] eqn:E.
  - rewrite decide_True by (apply HP; by rewrite E). cbn [length].
    apply le_n_S, IH.
  - destruct (decide (P x)); cbn [length]; [apply le_S|]; apply IH.
Qed.

Lemma paginationItem_Some currentPage total i :
  is_Some (Page.paginationItem currentPage total i) ->
  i ∈ [1; total; currentPage - 1; currentPage; currentPage + 1;
       currentPage - 2; currentPage + 2]%Z.
Proof.
  unfold Page.paginationItem. rewrite !elem_of_cons.
  destruct (Z.eqb_spec i 1); [by auto|].
  destruct (Z.eqb_spec i total); [by auto|].
  destruct (Z.leb_spec (currentPage - 1) i);
    destruct (Z.leb_spec i (currentPage + 1)); cbn [orb andb].
  1: { intros _. assert (i = currentPage - 1 \/ i = currentPage \/ i = currentPage + 1)%Z
         as [|[|]] by lia; auto 10. }
  all: destruct (Z.eqb_spec i (currentPage - 2));
    destruct (Z.eqb_spec i (currentPage + 2)); cbn [orb]; auto 10;
    by intros [? [=]].
Qed.

Lemma readQuotedBody_doubled s rest :
  Js.startsWith rest (String Page.quote EmptyString) = false ->
  Page.readQuotedBody (Page.doubleQuotes s +:+ String Page.quote rest) = Some (s, rest).
Proof.
  intros Hrest. induction s as [|a s IH].
  - rewrite append_nil_l. cbn [Page.readQuotedBody]. rewrite Ascii.eqb_refl.
    destruct rest as [|b rest]; [done|].
    unfold Js.startsWith in Hrest. cbn [String.prefix] in Hrest.
    destruct (Ascii.ascii_dec Page.quote b) as [<-|Hb].
    + by destruct rest.
    + destruct (Ascii.eqb_spec b Page.quote) as [->|]; done.
  - cbn [Page.doubleQuotes].
    destruct (Ascii.eqb_spec a Page.quote) as [->|Ha].
    + rewrite !append_cons. cbn [Page.readQuotedBody].
      rewrite Ascii.eqb_refl, IH. done.
    + rewrite append_cons. cbn [Page.readQuotedBody].
      apply Ascii.eqb_neq in Ha. rewrite Ha, IH. done.
Qed.

(** X13. With an empty search term every record is shown: the filter keeps
    the whole list, provided lowering the empty string gives the empty
    string. *)
Theorem empty_search_keeps_all toLowerCase results :
  toLowerCase EmptyString = EmptyString ->
  Page.filteredResults toLowerCase results EmptyString = results.
Proof.
  intros Hlower. unfold Page.filteredResults.
  induction results as [|r rs IH]; [done|].
  cbn [List.filter]. unfold Page.matches at 1.
  by rewrite Hlower, includes_empty, IH.
Qed.

(** The theorem of X13 on the sample records, lowering the letters A to Z. *)
Lemma empty_search_witness :
  Page.filteredResults Js.toLowerCase Page.sample EmptyString = Page.sample.
Proof. apply (empty_search_keeps_all Js.toLowerCase Page.sample). reflexivity. Defined.

(** X14. The pages partition the filtered records: pages 1 to [totalPages],
    one after the other, are the filtered list, nothing lost, nothing shown
    twice. *)
Theorem pages_partition_results filtered :
  concat ((fun p => Page.paginatedResults filtered (Z.of_nat p))
            <$> seq 1 (Z.to_nat (Page.totalPages filtered)))
  = filtered.
Proof.
  rewrite <- fmap_S_seq, <- list_fmap_compose.
  rewrite (list_fmap_ext _ (fun k => take 10 (drop (10 * k) filtered)))
    by (intros i k _; apply paginated_page).
  rewrite pages_concat. apply take_ge.
  by destruct (totalPages_bounds filtered) as (_ & Hlo & _).
Qed.

(** X15. A page numbered 1 or more shows at most ten records, and it is empty
    exactly when its number is beyond [totalPages]. *)
Theorem page_size_and_emptiness filtered (p : Z) :
  (1 <= p)%Z ->
  length (Page.paginatedResults filtered p) <= 10 /\
  (Page.paginatedResults filtered p = [] <-> (Page.totalPages filtered < p)%Z).
Proof.
  intros Hp. split; [|by apply page_empty_iff].
  replace p with (Z.of_nat (S (Z.to_nat (p - 1)))) by lia.
  rewrite paginated_page, length_take. lia.
Qed.

(** The theorem of X15 at page 2 of the three sample records. *)
Lemma page_size_witness :
  length (Page.paginatedResults Page.sample 2) <= 10 /\
  (Page.paginatedResults Page.sample 2 = [] <-> (Page.totalPages Page.sample < 2)%Z).
Proof. apply (page_size_and_emptiness Page.sample 2). lia. Defined.

(** X16. From a page within 1 and [totalPages], the previous and the next
    button lead to a page within the same bounds, which is not empty. *)
Theorem navigation_stays_on_shown_pages filtered (p : Z) :
  (1 <= p <= Page.totalPages filtered)%Z ->
  (1 <= Page.previousPage p <= Page.totalPages filtered)%Z /\
  (1 <= Page.nextPage p (Page.totalPages filtered) <= Page.totalPages filtered)%Z /\
  Page.paginatedResults filtered (Page.previousPage p) <> [] /\
  Page.paginatedResults filtered (Page.nextPage p (Page.totalPages filtered)) <> [].
Proof.
  intros Hp. unfold Page.previousPage, Page.nextPage.
  split; [lia|]. split; [lia|]. split.
  - rewrite page_empty_iff by lia. lia.
  - rewrite page_empty_iff by lia. lia.
Qed.

(** The theorem of X16 at page 1 of the sample records. *)
Lemma navigation_witness :
  (1 <= Page.previousPage 1 <= Page.totalPages Page.sample)%Z /\
  (1 <= Page.nextPage 1 (Page.totalPages Page.sample) <= Page.totalPages Page.sample)%Z /\
  Page.paginatedResults Page.sample (Page.previousPage 1) <> [] /\
  Page.paginatedResults Page.sample
    (Page.nextPage 1 (Page.totalPages Page.sample)) <> [].
Proof.
  apply (navigation_stays_on_shown_pages Page.sample 1). vm_compute. by split.
Defined.

(** X17. The pagination bar never holds more than seven entries, however many
    pages there are and whichever is current. *)
Theorem pagination_bar_at_most_seven currentPage total :
  length (Page.paginationItems currentPage total) <= 7.
Proof.
  unfold Page.paginationItems.
  set (S := [1; total; currentPage - 1; currentPage; currentPage + 1;
             currentPage - 2; currentPage + 2]%Z).
  etrans.
  - apply (omap_length_filter _ (fun i => i ∈ S)).
    apply paginationItem_Some.
  - change 7 with (length S). apply submseteq_length, NoDup_submseteq.
    + apply NoDup_filter, NoDup_seqZ.
    + by intros i [Hi _]%list_elem_of_filter.
Qed.

(** X18. When the current page is within 1 and [total], the bar holds the
    link to the first page, the link to the last page and the link to the
    current page, and the link to the current page is the only active one. *)
Theorem pagination_bar_marks_current_page currentPage total :
  (1 <= currentPage <= total)%Z ->
  Page.PageLink 1 (1 =? currentPage)%Z ∈ Page.paginationItems currentPage total /\
  Page.PageLink total (total =? currentPage)%Z ∈ Page.paginationItems currentPage total /\
  Page.PageLink currentPage true ∈ Page.paginationItems currentPage total /\
  (forall i, Page.PageLink i true ∈ Page.paginationItems currentPage total -> i = currentPage).
Proof.
  intros Hc. unfold Page.paginationItems.
  assert (forall i, (1 <= i <= total)%Z -> i ∈ seqZ 1 total) as Hin
    by (intros i Hi; apply elem_of_seqZ; lia).
  repeat split.
  - apply list_elem_of_omap. exists 1%Z. split; [apply Hin; lia|].
    unfold Page.paginationItem. by rewrite Z.eqb_refl.
  - apply list_elem_of_omap. exists total. split; [apply Hin; lia|].
    unfold Page.paginationItem. by rewrite Z.eqb_refl, orb_true_r.
  - apply list_elem_of_omap. exists currentPage. split; [apply Hin; lia|].
    unfold Page.paginationItem.
    rewrite (proj2 (Z.leb_le (currentPage - 1) currentPage)) by lia.
    rewrite (proj2 (Z.leb_le currentPage (currentPage + 1))) by lia.
    by rewrite Z.eqb_refl, !orb_true_r.
  - intros i (j & _ & Hj)%list_elem_of_omap. unfold Page.paginationItem in Hj.
    destruct ((j =? 1) || (j =? total)
              || ((currentPage - 1 <=? j) && (j <=? currentPage + 1)))%Z.
    + injection Hj as -> Heq. by apply Z.eqb_eq.
    + by destruct ((j =? currentPage - 2) || (j =? currentPage + 2))%Z.
Qed.

(** The theorem of X18 at page 5 of 20. *)
Lemma pagination_bar_witness :
  Page.PageLink 5 true ∈ Page.paginationItems 5 20 /\
  (forall i, Page.PageLink i true ∈ Page.paginationItems 5 20 -> i = 5%Z).
Proof.
  destruct (pagination_bar_marks_current_page 5 20) as (_ & _ & H & Honly); [lia|].
  split; [exact H | exact Honly].
Defined.

(** X19. The quoting of the title, the description and the first heading in
    the CSV export can be undone: a reader of quoted fields that meets the
    field between quotes, its quotes doubled, followed by anything that does
    not begin with a quote, reads back the original string and leaves what
    follows. *)
Theorem quoted_field_reads_back s rest :
  Js.startsWith rest (String Page.quote EmptyString) = false ->
  Page.readQuoted (Page.quoted (Page.doubleQuotes s) +:+ rest) = Some (s, rest).
Proof.
  intros Hrest. unfold Page.quoted, Page.readQuoted.
  rewrite append_cons, Ascii.eqb_refl, append_assoc_L.
  change (String Page.quote EmptyString +:+ rest) with (String Page.quote rest).
  by apply readQuotedBody_doubled.
Qed.

(** The theorem of X19 at the title [say "hi"] followed by a comma. *)
Lemma quoted_field_witness :
  Page.readQuoted
    (Page.quoted (Page.doubleQuotes
       ("say " +:+ String Page.quote ("hi" +:+ String Page.quote EmptyString)))
     +:+ ",200")
  = Some ("say " +:+ String Page.quote ("hi" +:+ String Page.quote EmptyString),
          ",200").
Proof.
  apply (quoted_field_reads_back
           ("say " +:+ String Page.quote ("hi" +:+ String Page.quote EmptyString))
           ",200").
  reflexivity.
Defined.


(** ** Failures of pages and of the seed *)

Section Failures.

Context {platform : Platform}.

Lemma analyzePage_cases u baseUrl l :
  match fetch (fetchCount l) u with
  | FetchThrows => fst (analyzePage u baseUrl l) = failureRecord u
  | FetchReturns r =>
      if ok r && isHtml r then
        match text r with
        | None => fst (analyzePage u baseUrl l) = failureRecord u
        | Some html =>
            match load html with
            | None => fst (analyzePage u baseUrl l) = failureRecord u
            | Some d => statusCode (fst (analyzePage u baseUrl l)) = status r
            end
        end
      else fst (analyzePage u baseUrl l) = defaultRecord u (status r)
  end.
Proof.
  unfold analyzePage. cbn [fst].
  destruct (fetch (fetchCount l) u) as [|r]; [done|].
  destruct (ok r); cbn [negb andb]; [|done].
  destruct (isHtml r); cbn [negb]; [|done].
  destruct (text r) as [html|]; [|done]. by destruct (load html).
Qed.

Lemma pass_without_links baseUrl st u rest :
  queue st = u :: rest -> u ∉ visited st ->
  statusCode (pageData baseUrl st u) <> 200 ->
  iteration baseUrl st =
    mkCrawl rest (visited st ∪ {[u]}) (results st ++ [pageData baseUrl st u])
      (log st ++ [AVisit u;
                  AWrite (EProgress (percent (size (visited st ∪ {[u]}))));
                  AFetch u; AWrite (EResult (pageData baseUrl st u))]).
Proof.
  intros Hq Hu Hne%Nat.eqb_neq. rewrite (iteration_pass _ st u rest) by done.
  unfold discovered, beforeEnqueue, passActions. rewrite Hne.
  cbn [foldl]. by rewrite app_nil_r.
Qed.

Lemma crawl_runs_to_exit baseUrl :
  exists st final,
    loop MAX_URLS baseUrl (start baseUrl) = Some st /\
    guard st = false /\
    (queue st = [] \/ size (visited st) = MAX_URLS) /\
    analyzeWebsite MAX_URLS baseUrl = Some final /\
    results final = results st /\
    url <$> results st = visits (log st) /\
    visits (log st) ++ queue st = baseUrl :: pushes (log st).
Proof.
  destruct (loop_total baseUrl MAX_URLS (start baseUrl))
    as [st Hloop]; [apply Frontier_start | lia |].
  destruct (loop_Reachable _ _ _ _ (reach_start _) Hloop) as [Hreach Hguard].
  destruct (Reachable_inv _ _ Hreach) as ((_ & _ & Hsum) & (_ & _ & Hres & _) & _).
  eexists st, _. unfold analyzeWebsite. rewrite Hloop.
  repeat split; try done.
  - unfold guard in Hguard. apply andb_false_iff in Hguard as [Hq | Hv].
    + left. apply Nat.ltb_ge in Hq. destruct (queue st); [done | simpl in Hq; lia].
    + right. apply Nat.ltb_ge in Hv. lia.
  - by apply Reachable_order.
Qed.

Lemma crawl_stream_ends baseUrl :
  exists final middle,
    analyzeWebsite MAX_URLS baseUrl = Some final /\
    written (log final) =
      EProgress 0 :: EResult (pageData baseUrl (start baseUrl) baseUrl)
        :: middle ++ [EProgress 100].
Proof.
  destruct (loop_total baseUrl MAX_URLS (start baseUrl))
    as [st Hloop]; [apply Frontier_start | lia |].
  unfold analyzeWebsite. rewrite Hloop.
  change (loop MAX_URLS baseUrl (start baseUrl))
    with (if guard (start baseUrl)
          then loop 499 baseUrl (iteration baseUrl (start baseUrl))
          else Some (start baseUrl)) in Hloop.
  rewrite guard_start in Hloop.
  apply loop_log_prefix in Hloop as (l & Hl).
  destruct (iteration_log baseUrl (start baseUrl) baseUrl [])
    as (pushed & Hlog & _); [done | apply not_elem_of_empty |].
  rewrite Hlog in Hl. cbn [start log app] in Hl.
  exists (mkCrawl (queue st) (visited st) (results st)
            (log st ++ [AWrite (EProgress 100); AClose])),
         (written l).
  split; [done|]. cbn [log]. rewrite Hl.
  rewrite !written_app, passActions_written, written_enqueues.
  cbn [start visited].
  rewrite size_visit by apply not_elem_of_empty. rewrite size_empty.
  done.
Qed.

(** C3, as amended. [analyzePage] turns every failure of a page into a
    record: the failure record, with status code 0, when [fetch] throws and
    when the body of an HTML response with a status in the 200s cannot be
    read or parsed; the default record with the status of the response when
    that status is outside the 200s or the content is not HTML. A pass whose
    record is not of status 200, a failed page among them, appends that
    record and hands over to the next pending address. The loop is never cut
    short: it runs until the queue is empty or the budget is reached, with a
    record for every visited address and, when the queue ends empty, a visit
    for every address ever pushed. A missing seed, absent or empty, is
    answered with the error reply and no crawl is started. Any other seed,
    parseable or not, starts the crawl: the stream begins with a progress
    event and the record of the seed, the failure record when [fetch] throws
    on it, and ends with progress 100. *)
Theorem failures_recorded_missing_seed_refused fuel :
  (forall u baseUrl l,
     url (fst (analyzePage u baseUrl l)) = u /\
     statusCode (failureRecord u) = 0 /\
     match fetch (fetchCount l) u with
     | FetchThrows => fst (analyzePage u baseUrl l) = failureRecord u
     | FetchReturns r =>
         if ok r && isHtml r then
           match text r with
           | None => fst (analyzePage u baseUrl l) = failureRecord u
           | Some html =>
               match load html with
               | None => fst (analyzePage u baseUrl l) = failureRecord u
               | Some d => statusCode (fst (analyzePage u baseUrl l)) = status r
               end
           end
         else fst (analyzePage u baseUrl l) = defaultRecord u (status r)
     end) /\
  (forall baseUrl st u rest,
     queue st = u :: rest -> u ∉ visited st ->
     statusCode (pageData baseUrl st u) <> 200 ->
     iteration baseUrl st =
       mkCrawl rest (visited st ∪ {[u]}) (results st ++ [pageData baseUrl st u])
         (log st ++ [AVisit u;
                     AWrite (EProgress (percent (size (visited st ∪ {[u]}))));
                     AFetch u; AWrite (EResult (pageData baseUrl st u))])) /\
  (forall baseUrl, exists st final,
     loop MAX_URLS baseUrl (start baseUrl) = Some st /\
     guard st = false /\
     (queue st = [] \/ size (visited st) = MAX_URLS) /\
     analyzeWebsite MAX_URLS baseUrl = Some final /\
     results final = results st /\
     url <$> results st = visits (log st) /\
     visits (log st) ++ queue st = baseUrl :: pushes (log st)) /\
  GET fuel None = BadRequest "Domain parameter is required" /\
  GET fuel (Some EmptyString) = BadRequest "Domain parameter is required" /\
  (forall c d, exists final data middle,
     let baseUrl :=
       if Js.startsWith (String c d) "http" then String c d
       else "https://" +:+ String c d in
     GET MAX_URLS (Some (String c d)) = Streaming (Some final) /\
     written (log final) = EProgress 0 :: EResult data :: middle ++ [EProgress 100] /\
     url data = baseUrl /\
     match fetch 0 baseUrl with
     | FetchThrows => data = failureRecord baseUrl
     | FetchReturns r =>
         if ok r && isHtml r then
           match text r with
           | None => data = failureRecord baseUrl
           | Some html =>
               match load html with
               | None => data = failureRecord baseUrl
               | Some d => statusCode data = status r
               end
           end
         else data = defaultRecord baseUrl (status r)
     end).
Proof.
  split; [|split; [|split; [|split; [|split]]]]; try done.
  - intros u baseUrl l. split; [apply analyzePage_url|]. split; [done|].
    apply analyzePage_cases.
  - apply pass_without_links.
  - apply crawl_runs_to_exit.
  - intros c d.
    set (baseUrl := if Js.startsWith (String c d) "http" then String c d
                    else "https://" +:+ String c d).
    destruct (crawl_stream_ends baseUrl) as (final & middle & Hrun & Hwritten).
    exists final, (pageData baseUrl (start baseUrl) baseUrl), middle.
    cbv zeta. fold baseUrl. split; [|split; [done|split]].
    + unfold GET. cbn [String.eqb]. fold baseUrl. by rewrite Hrun.
    + apply analyzePage_url.
    + apply (analyzePage_cases baseUrl baseUrl (logAtFetch (start baseUrl) baseUrl)).
Qed.

End Failures.
